(** * GPflow SVGP: the sparse variational GP objective, embedded over the reals

    A shallow embedding of [GPflow/svgp.py] (class [SVGP]): the constructor,
    [build_prior_KL], [build_likelihood] and [build_predict].

    Modelling decisions.
    - Tensor entries are real numbers ([R]): the arithmetic of the formulas is
      the exact one, rounding is not modelled.  [tf.square x] is [x * x], the
      jitter constant [1e-6] is the real number 10^-6.  [tf.log] is [ln],
      which is the logarithm on the positive reals only: at [0], [tf.log] is
      minus infinity, which [R] does not have, and [ln 0] is [0].  The code
      takes logarithms of squares only, so the two differ exactly at a zero
      entry.  The diagonal of a Cholesky factor is positive, and so is a
      diagonal [q_sqrt], through its transform; a full-covariance [q_sqrt]
      may hold a zero on a diagonal, and a statement that gives the value of
      its logarithm term carries the hypothesis that it does not.
    - A vector is a list of reals, a matrix a list of rows, a rank-3 array a
      list of matrices ([t[i][j][d]] is [nth d (nth j (nth i t))]).
    - Shapes are those of the data model; the list operations truncate on
      operands of unequal shape, on which TensorFlow rejects the graph.
    - An evaluation is one run of the graph that the code builds, its
      operations taken in the order of the code.  It threads the list of
      matrices handed to [tf.cholesky] (the dominant cost of a forward pass)
      and may fail: a Cholesky factorization of a matrix that is not positive
      definite and an index out of range are fatal.  The run stops at the
      first failing operation, whereas the code still adds the later
      operations to the graph; what is requested after a failed
      factorization is therefore not recorded, and no statement speaks
      of it. *)

From Stdlib Require Import Reals List Arith Bool Lia Lra.
Import ListNotations.

Local Open Scope R_scope.

Set Implicit Arguments.

(* ================================================================= *)
(** ** Tensors *)

Abbreviation vec := (list R).
Abbreviation mat := (list (list R)).
Abbreviation tensor3 := (list (list (list R))).

(** The value of a parameter array: [q_mu] and [Z] have rank 2, [q_sqrt] has
    rank 2 ([q_diag]) or rank 3. *)
Inductive ndarray : Type :=
| Rank2 (a : mat)
| Rank3 (t : tensor3).

(** What [tf.square], [tf.log] and [tf.reduce_sum] need of a tensor: they act
    on every rank alike. *)
Class Tensor (A : Type) : Type := {
  tmap : (R -> R) -> A -> A;
  reduce_sum : A -> R
}.

#[export] Instance scalar_Tensor : Tensor R := {
  tmap f x := f x;
  reduce_sum x := x
}.

#[export] Instance list_Tensor {A : Type} `{Tensor A} : Tensor (list A) := {
  tmap f := map (tmap f);
  reduce_sum l := fold_right (fun a s => reduce_sum a + s) 0 l
}.

#[export] Instance ndarray_Tensor : Tensor ndarray := {
  tmap f a := match a with
              | Rank2 m => Rank2 (tmap f m)
              | Rank3 t => Rank3 (tmap f t)
              end;
  reduce_sum a := match a with
                  | Rank2 m => reduce_sum m
                  | Rank3 t => reduce_sum t
                  end
}.

Definition tf_square {A : Type} `{Tensor A} (x : A) : A := tmap (fun v => v * v) x.

(** [tf.log], entry by entry; it agrees with [tf.log] on the positive
    entries, and gives [0] where [tf.log] gives minus infinity or NaN. *)
Definition tf_log {A : Type} `{Tensor A} (x : A) : A := tmap ln x.

(** [tabulate n f] is the list [f 0; ...; f (n-1)]. *)
Definition tabulate {A : Type} (n : nat) (f : nat -> A) : list A := map f (seq 0 n).

Definition mk_mat (r c : nat) (f : nat -> nat -> R) : mat :=
  tabulate r (fun i => tabulate c (f i)).

Definition mnth (A : mat) (i j : nat) : R := nth j (nth i A []) 0.

Definition shape0 {A : Type} (a : list A) : nat := length a.
Definition shape1 {A : Type} (a : list (list A)) : nat := length (hd [] a).

(** A matrix of [r] rows, each of [c] entries. *)
Definition is_mat (r c : nat) (A : mat) : Prop :=
  length A = r /\ Forall (fun row => length row = c) A.

Fixpoint map2 {A B C : Type} (f : A -> B -> C) (u : list A) (v : list B) : list C :=
  match u, v with
  | a :: u', b :: v' => f a b :: map2 f u' v'
  | _, _ => []
  end.

Definition vadd (u v : vec) : vec := map2 Rplus u v.
Definition vsub (u v : vec) : vec := map2 Rminus u v.
Definition vscale (c : R) (v : vec) : vec := map (Rmult c) v.

(** A binary operation with numpy broadcasting along one axis: an axis of
    size one is stretched. *)
Definition bcast {A : Type} (f : A -> A -> A) (u v : list A) : list A :=
  match u, v with
  | [a], _ => map (f a) v
  | _, [b] => map (fun a => f a b) u
  | _, _ => map2 f u v
  end.

(** Elementwise [A + B] and [A * B] of two matrices, and [A * c] of a matrix
    and a scalar. *)
Definition tf_add (A B : mat) : mat := bcast (bcast Rplus) A B.
Definition tf_mul (A B : mat) : mat := bcast (bcast Rmult) A B.
Definition tf_scale (A : mat) (c : R) : mat := map (map (fun x => x * c)) A.

(** A rank-2 array times an array of rank 2 or 3: against rank 3 the rank-2
    operand is stretched along the leading axis. *)
Definition nd_mul (A : mat) (b : ndarray) : ndarray :=
  match b with
  | Rank2 m => Rank2 (tf_mul A m)
  | Rank3 t => Rank3 (map (tf_mul A) t)
  end.

(** [tf.expand_dims(v, 1)]: a vector as a one-column matrix. *)
Definition expand_dims1 (v : vec) : mat := map (fun x => [x]) v.

Definition np_zeros (r c : nat) : mat := repeat (repeat 0 c) r.
Definition np_ones (r c : nat) : mat := repeat (repeat 1 c) r.
Definition np_eye (n : nat) : mat := mk_mat n n (fun i j => if Nat.eqb i j then 1 else 0).

(** Modelled from the spec: [tf_hacks.eye(n)], the identity matrix as a
    tensor. *)
Abbreviation eye := np_eye.

(** [a.swapaxes(0,2)] of a rank-3 array: [b[i][j][d] = a[d][j][i]].  The
    array built from an empty list of matrices has rank 1 and numpy raises. *)
Definition swapaxes02 (t : tensor3) : option tensor3 :=
  match t with
  | [] => None
  | m0 :: _ =>
      Some (tabulate (shape1 m0) (fun i =>
              tabulate (shape0 m0) (fun j =>
                tabulate (shape0 t) (fun d => nth i (nth j (nth d t []) []) 0))))
  end.

(** [t[:,:,d]]; an index [d] beyond the last axis is an error. *)
Definition slice3 (t : tensor3) (d : nat) : option mat :=
  if forallb (forallb (fun v : vec => Nat.ltb d (length v))) t
  then Some (map (map (fun v : vec => nth d v 0)) t)
  else None.

Definition tf_transpose (A : mat) : mat :=
  mk_mat (shape1 A) (shape0 A) (fun i j => mnth A j i).

(* ================================================================= *)
(** ** Linear-algebra primitives *)

Inductive uplo : Type := lower | upper.

(** Modelled from the spec: [tf.user_ops.get_diag], diagonal extraction. *)
Definition get_diag (A : mat) : vec :=
  tabulate (Nat.min (shape0 A) (shape1 A)) (fun i => mnth A i i).

(** Modelled from the spec: [tf.user_ops.triangle], lower-triangle (or
    upper-triangle) extraction; the other entries are masked to zero. *)
Definition triangle (A : mat) (side : uplo) : mat :=
  mk_mat (shape0 A) (shape1 A)
    (fun i j => match side with
                | lower => if Nat.leb j i then mnth A i j else 0
                | upper => if Nat.leb i j then mnth A i j else 0
                end).

(** [dotrows w c Xs] is the row [sum_k c_k * Xs_k], of width [w]. *)
Definition dotrows (w : nat) (c : vec) (Xs : mat) : vec :=
  fold_right (fun cx acc => vadd (vscale (fst cx) (snd cx)) acc)
             (repeat 0 w) (combine c Xs).

(** Forward substitution, row by row: [acc] holds the rows of the solution
    found so far, and row [i] reads [L_i0 .. L_ii] only. *)
Fixpoint forward_subst (Ls Bs acc : mat) : mat :=
  match Ls, Bs with
  | l :: Ls', b :: Bs' =>
      let x := vscale (/ nth (length acc) l 0)
                      (vsub b (dotrows (length b) l acc)) in
      forward_subst Ls' Bs' (acc ++ [x])
  | _, _ => acc
  end.

(** Back substitution, last row first: row [i] reads [U_ii .. U_i(n-1)]
    only. *)
Fixpoint back_subst (n : nat) (Us Bs : mat) : mat :=
  match Us, Bs with
  | u :: Us', b :: Bs' =>
      let X' := back_subst n Us' Bs' in
      let i := (n - S (length Us'))%nat in
      vscale (/ nth i u 0) (vsub b (dotrows (length b) (skipn (S i) u) X')) :: X'
  | _, _ => []
  end.

(** Modelled from the spec: [tf.user_ops.triangular_solve(T, B, side)], the
    solution [X] of [T X = B] for a triangular [T], by forward ([lower]) or
    back ([upper]) substitution. *)
Definition triangular_solve (T B : mat) (side : uplo) : mat :=
  match side with
  | lower => forward_subst T B []
  | upper => back_subst (length T) T B
  end.

Definition vdot (u v : vec) : R := reduce_sum (map2 Rmult u v).

(** The off-diagonal entries of row [i] of the Cholesky factor, given the
    rows [0 .. i-1]: [y_j = (a_j - sum_(k<j) y_k L_jk) / L_jj]. *)
Fixpoint chol_row (a : vec) (Lprev : mat) (y : vec) : vec :=
  match Lprev with
  | [] => y
  | r :: rest =>
      let j := length y in
      chol_row a rest (y ++ [(nth j a 0 - vdot y r) / nth j r 0])
  end.

(** Cholesky-Banachiewicz, row by row; a pivot that is not positive means
    the matrix is not positive definite. *)
Fixpoint chol_rows (n : nat) (As acc : mat) : option mat :=
  match As with
  | [] => Some acc
  | a :: As' =>
      let i := length acc in
      let y := chol_row a acc [] in
      let d := nth i a 0 - vdot y y in
      if Rlt_dec 0 d
      then chol_rows n As' (acc ++ [y ++ sqrt d :: repeat 0 (n - S i)])
      else None
  end.

(** Modelled from the spec: the Cholesky factorization [tf.cholesky], the
    lower-triangular [L] with positive diagonal and [L L^T = A]; it reads the
    lower triangle of [A] and fails on a matrix that is not positive
    definite. *)
Definition cholesky (A : mat) : option mat := chol_rows (length A) A [].

Definition tf_matmul (A B : mat) : mat := map (fun a => dotrows (shape1 B) a B) A.

(* ================================================================= *)
(** ** Evaluations *)

(** The matrices handed to [tf.cholesky] so far, oldest first. *)
Abbreviation trace := (list (list (list R))).

Definition Eval (A : Type) : Type := trace -> option A * trace.

Definition ret {A : Type} (a : A) : Eval A := fun s => (Some a, s).

Definition raise {A : Type} : Eval A := fun s => (None, s).

Definition bind {A B : Type} (c : Eval A) (k : A -> Eval B) : Eval B :=
  fun s => match c s with
           | (Some a, s') => k a s'
           | (None, s') => (None, s')
           end.

Notation "x <- c ;; k" := (bind c (fun x => k))
  (at level 61, c at next level, right associativity).

Definition lift_option {A : Type} (o : option A) : Eval A :=
  match o with
  | Some a => ret a
  | None => raise
  end.

(** [tf.cholesky(A)] inside an evaluation: the request is recorded, then the
    factor is returned or the evaluation fails.  The failure is that of the
    run of the graph; the operations that the code adds after this one are
    not run then, and are not recorded. *)
Definition tf_cholesky (A : mat) : Eval mat :=
  fun s => (cholesky A, s ++ [A]).

(** [for d in range(n): acc = body d acc]. *)
Fixpoint for_loop {A : Type} (ds : list nat) (acc : A) (body : nat -> A -> Eval A) : Eval A :=
  match ds with
  | [] => ret acc
  | d :: ds' => acc' <- body d acc ;; for_loop ds' acc' body
  end.

Definition for_range {A : Type} (n : nat) (acc : A) (body : nat -> A -> Eval A) : Eval A :=
  for_loop (seq 0 n) acc body.

(* ================================================================= *)
(** ** Collaborators of the model *)

(** The kernel object: the Gram matrix [K(A)] of a point set, the
    cross-covariance [K(A,B)] and the diagonal [Kdiag(A)].  The Gram matrix
    of [M] points is [M x M]. *)
Record Kernel : Type := {
  K : mat -> mat;
  K2 : mat -> mat -> mat;
  Kdiag : mat -> vec;
  K_shape : forall A : mat, is_mat (length A) (length A) (K A)
}.

(** The likelihood object: the elementwise expected log-density. *)
Record Likelihood : Type := {
  variational_expectations : mat -> mat -> mat -> mat
}.

(** A mean function maps inputs [N x D] to [N x L]. *)
Definition MeanFunction : Type := mat -> mat.

(** Modelled from the spec: a transform of module [transforms] maps the
    unconstrained free variable to the effective value, entry by entry. *)
Record Transform : Type := {
  forward : R -> R
}.

(** Modelled from the spec: the transform of a parameter built without one
    leaves the free variable as it is. *)
Definition Identity : Transform := {| forward := fun x => x |}.

(** Modelled from the spec: [transforms.positive], the positivity transform;
    it maps every real free variable to a strictly positive value. *)
Class Transforms : Type := {
  positive : Transform;
  positive_gt_0 : forall x : R, 0 < forward positive x
}.

(** Modelled from the spec: [Param(array, transform)] of module [param]
    holds the current value of a parameter together with its transform;
    [set_state] is the optimizer's only way to change the value, through the
    transform of a new free array. *)
Record Param (A : Type) : Type := {
  value : A;
  transform : Transform
}.

Definition mkParam {A : Type} (array : A) (t : Transform) : Param A :=
  {| value := array; transform := t |}.

Definition set_state {A : Type} `{Tensor A} (p : Param A) (free : A) : Param A :=
  {| value := tmap (forward (transform p)) free; transform := transform p |}.

(** Module [conditionals]: the two conditional predictors, called with
    [(Xnew, Z, kern, q_mu, q_sqrt, num_latent)]; they return the predictive
    mean and variance and may factorize matrices of their own. *)
Class Conditionals : Type := {
  gaussian_gp_predict :
    mat -> mat -> Kernel -> mat -> ndarray -> nat -> Eval (mat * mat);
  gaussian_gp_predict_whitened :
    mat -> mat -> Kernel -> mat -> ndarray -> nat -> Eval (mat * mat)
}.

(* ================================================================= *)
(** ** The class SVGP *)

Record SVGP : Type := {
  X : mat;
  Y : mat;
  kern : Kernel;
  likelihood : Likelihood;
  mean_function : MeanFunction;
  q_diag : bool;
  whiten : bool;
  Z : Param mat;
  num_latent : nat;
  num_inducing : nat;
  q_mu : Param mat;
  q_sqrt : Param ndarray
}.

(** Python's [a or b] on an optional count: [None] and [0] are falsy. *)
Definition py_or (a : option nat) (b : nat) : nat :=
  match a with
  | Some (S n) => S n
  | Some O => b
  | None => b
  end.

(** [SVGP.__init__(X, Y, kern, likelihood, Z, mean_function, num_latent,
    q_diag, whiten)].  [num_latent] is [None] or a count; the defaults of the
    last four arguments are passed explicitly.  [GPModel.__init__] stores its
    five arguments.  The construction fails where numpy raises: on the
    rank-1 array of an empty list of matrices. *)
Definition __init__ `{Transforms} (X Y : mat) (kern : Kernel) (likelihood : Likelihood)
    (Z : mat) (mean_function : MeanFunction) (num_latent : option nat)
    (q_diag whiten : bool) : option SVGP :=
  let num_latent := py_or num_latent (shape1 Y) in
  let num_inducing := shape0 Z in
  let q_mu := mkParam (np_zeros num_inducing num_latent) Identity in
  let q_sqrt :=
    if q_diag
    then Some (mkParam (Rank2 (np_ones num_inducing num_latent)) positive)
    else option_map (fun t => mkParam (Rank3 t) Identity)
           (swapaxes02 (map (fun _ => np_eye num_inducing) (seq 0 num_latent))) in
  option_map
    (fun q_sqrt =>
       {| X := X; Y := Y; kern := kern; likelihood := likelihood;
          mean_function := mean_function;
          q_diag := q_diag; whiten := whiten;
          Z := mkParam Z Identity;
          num_latent := num_latent; num_inducing := num_inducing;
          q_mu := q_mu; q_sqrt := q_sqrt |})
    q_sqrt.

(** [self.q_sqrt[:,:,d]]: only a rank-3 array can be indexed on three axes. *)
Definition nd_slice3 (a : ndarray) (d : nat) : option mat :=
  match a with
  | Rank2 _ => None
  | Rank3 t => slice3 t d
  end.

(** [SVGP.build_prior_KL(self)]: the KL divergence from the variational
    distribution at the inducing points to the prior, in one of four closed
    forms. *)
Definition build_prior_KL (self : SVGP) : Eval R :=
  if whiten self then
    let KL := 0.5 * reduce_sum (tf_square (value (q_mu self))) in
    let KL := KL - 0.5 * INR (num_inducing self) * INR (num_latent self) in
    if q_diag self then
      let KL := KL + (- 0.5 * reduce_sum (tf_log (tf_square (value (q_sqrt self))))
                      + 0.5 * reduce_sum (tf_square (value (q_sqrt self)))) in
      ret KL
    else
      for_range (num_latent self) KL (fun d KL =>
        q_d <- lift_option (nd_slice3 (value (q_sqrt self)) d) ;;
        let Lq := triangle q_d lower in
        let KL := KL - 0.5 * reduce_sum (tf_log (tf_square (get_diag Lq))) in
        let KL := KL + 0.5 * reduce_sum (tf_square Lq) in
        ret KL)
  else
    L <- tf_cholesky (tf_add (K (kern self) (value (Z self)))
                             (tf_scale (eye (num_inducing self)) 1e-6)) ;;
    let alpha := triangular_solve L (value (q_mu self)) lower in
    let KL := 0.5 * reduce_sum (tf_square alpha) in
    let KL := KL + INR (num_latent self) * 0.5
                   * reduce_sum (tf_log (tf_square (get_diag L))) in
    let KL := KL - 0.5 * INR (num_inducing self) * INR (num_latent self) in
    if q_diag self then
      let L_inv := triangular_solve L (eye (num_inducing self)) lower in
      let K_inv := triangular_solve (tf_transpose L) L_inv upper in
      let KL := KL - 0.5 * reduce_sum (tf_log (tf_square (value (q_sqrt self)))) in
      let KL := KL + 0.5 * reduce_sum (nd_mul (expand_dims1 (get_diag K_inv))
                                              (tf_square (value (q_sqrt self)))) in
      ret KL
    else
      for_range (num_latent self) KL (fun d KL =>
        q_d <- lift_option (nd_slice3 (value (q_sqrt self)) d) ;;
        let Lq := triangle q_d lower in
        let KL := KL + - 0.5 * reduce_sum (tf_log (tf_square (get_diag Lq))) in
        let LiLq := triangular_solve L Lq lower in
        let KL := KL + 0.5 * reduce_sum (tf_square LiLq) in
        ret KL).

(** [SVGP.build_likelihood(self)]: the variational bound on the model
    likelihood. *)
Definition build_likelihood `{Conditionals} (self : SVGP) : Eval R :=
  KL <- build_prior_KL self ;;
  fmean_fvar <- (if whiten self then
      gaussian_gp_predict_whitened (X self) (value (Z self)) (kern self)
        (value (q_mu self)) (value (q_sqrt self)) (num_latent self)
    else
      gaussian_gp_predict (X self) (value (Z self)) (kern self)
        (value (q_mu self)) (value (q_sqrt self)) (num_latent self)) ;;
  let fmean := fst fmean_fvar in
  let fvar := snd fmean_fvar in
  let fmean := tf_add fmean (mean_function self (X self)) in
  let variational_expectations :=
    variational_expectations (likelihood self) fmean fvar (Y self) in
  ret (reduce_sum variational_expectations - KL).

(** [SVGP.build_predict(self, Xnew)]. *)
Definition build_predict `{Conditionals} (self : SVGP) (Xnew : mat) : Eval (mat * mat) :=
  mu_var <- (if whiten self then
      gaussian_gp_predict_whitened Xnew (value (Z self)) (kern self)
        (value (q_mu self)) (value (q_sqrt self)) (num_latent self)
    else
      gaussian_gp_predict Xnew (value (Z self)) (kern self)
        (value (q_mu self)) (value (q_sqrt self)) (num_latent self)) ;;
  let mu := fst mu_var in
  let var := snd mu_var in
  ret (tf_add mu (mean_function self Xnew), var).

(* ================================================================= *)
(** ** The lifetime of a model *)

(** The model with other targets and another likelihood. *)
Definition with_data (m : SVGP) (Y' : mat) (likelihood' : Likelihood) : SVGP :=
  {| X := X m; Y := Y'; kern := kern m; likelihood := likelihood';
     mean_function := mean_function m;
     q_diag := q_diag m; whiten := whiten m; Z := Z m;
     num_latent := num_latent m; num_inducing := num_inducing m;
     q_mu := q_mu m; q_sqrt := q_sqrt m |}.

(** The model with another covariance parameterization: the flag [q_diag]
    and the value of [q_sqrt]. *)
Definition with_q_sqrt (m : SVGP) (q_diag' : bool) (v : ndarray) : SVGP :=
  {| X := X m; Y := Y m; kern := kern m; likelihood := likelihood m;
     mean_function := mean_function m;
     q_diag := q_diag'; whiten := whiten m; Z := Z m;
     num_latent := num_latent m; num_inducing := num_inducing m;
     q_mu := q_mu m;
     q_sqrt := {| value := v; transform := transform (q_sqrt m) |} |}.

(** One step of the external optimizer, between two forward passes: every
    parameter receives a new free array. *)
Definition set_parameters (m : SVGP) (free_Z free_q_mu : mat) (free_q_sqrt : ndarray) : SVGP :=
  {| X := X m; Y := Y m; kern := kern m; likelihood := likelihood m;
     mean_function := mean_function m;
     q_diag := q_diag m; whiten := whiten m;
     Z := set_state (Z m) free_Z;
     num_latent := num_latent m; num_inducing := num_inducing m;
     q_mu := set_state (q_mu m) free_q_mu;
     q_sqrt := set_state (q_sqrt m) free_q_sqrt |}.

(** The states a model goes through after its construction as [m0]. *)
Inductive lifetime (m0 : SVGP) : SVGP -> Prop :=
| lifetime_start : lifetime m0 m0
| lifetime_step (m : SVGP) (free_Z free_q_mu : mat) (free_q_sqrt : ndarray) :
    lifetime m0 m ->
    lifetime m0 (set_parameters m free_Z free_q_mu free_q_sqrt).

(** Every entry of an array satisfies [P]. *)
Definition nd_Forall (P : R -> Prop) (a : ndarray) : Prop :=
  match a with
  | Rank2 m => Forall (Forall P) m
  | Rank3 t => Forall (Forall (Forall P)) t
  end.

(* ================================================================= *)
(** ** Notions used in the statements *)

(** [bigsum n f] is [f 0 + ... + f (n-1)]. *)
Fixpoint bigsum (n : nat) (f : nat -> R) : R :=
  match n with
  | O => 0
  | S n' => bigsum n' f + f n'
  end.

Definition lower_tri (n : nat) (L : mat) : Prop :=
  forall i j, (i < j)%nat -> (j < n)%nat -> mnth L i j = 0.

Definition upper_tri (n : nat) (U : mat) : Prop :=
  forall i j, (j < i)%nat -> (i < n)%nat -> mnth U i j = 0.

Definition diag_nonzero (n : nat) (L : mat) : Prop :=
  forall i, (i < n)%nat -> mnth L i i <> 0.

Definition symmetric (n : nat) (A : mat) : Prop :=
  forall i j, (i < n)%nat -> (j < n)%nat -> mnth A i j = mnth A j i.

(** The rows of a Cholesky factor found so far: full width, zero right of
    the diagonal, positive on it. *)
Definition chol_inv (n : nat) (acc : mat) : Prop :=
  Forall (fun row => length row = n) acc /\
  forall i, (i < length acc)%nat ->
    0 < mnth acc i i /\ forall j, (i < j)%nat -> mnth acc i j = 0.

(** The matrix that [build_prior_KL] hands to [tf.cholesky]. *)
Definition jittered_gram (self : SVGP) : mat :=
  tf_add (K (kern self) (value (Z self))) (tf_scale (eye (num_inducing self)) 1e-6).

(** The full-covariance [q_sqrt], [M x M x L], whose slice [d] is the
    diagonal matrix of column [d] of the [M x L] matrix [s]. *)
Definition diag_stack (M L : nat) (s : mat) : tensor3 :=
  tabulate M (fun i => tabulate M (fun j => tabulate L (fun d =>
    if Nat.eqb i j then mnth s i d else 0))).

(* ================================================================= *)
(** ** A small model *)

(** The white-noise kernel: the Gram matrix of [M] points is the identity. *)
Definition white_kernel : Kernel.
Proof.
  refine {| K := fun A => np_eye (length A);
            K2 := fun A B => mk_mat (length A) (length B) (fun _ _ => 0);
            Kdiag := fun A => repeat 1 (length A);
            K_shape := _ |}.
  intros A. unfold np_eye, mk_mat, tabulate. split.
  - now rewrite length_map, length_seq.
  - apply Forall_forall. intros row Hrow. apply in_map_iff in Hrow.
    destruct Hrow as (i & <- & _). now rewrite length_map, length_seq.
Defined.

(** The Gaussian likelihood of unit variance:
    [E log N(y | f, 1)] for [f ~ N(mu, var)]. *)
Definition gaussian_likelihood : Likelihood :=
  {| variational_expectations := fun fmean fvar Y =>
       map2 (map2 (fun (mv : R * R) (y : R) =>
                     - 0.5 * ln (2 * PI)
                     - 0.5 * ((y - fst mv) * (y - fst mv) + snd mv)))
            (map2 (@combine R R) fmean fvar) Y |}.

(** The zero mean function, one column wide. *)
Definition zero_mean : MeanFunction := fun X => map (fun _ => [0]) X.

(** A positivity transform: the exponential. *)
Definition exp_Transforms : Transforms :=
  {| positive := {| forward := exp |}; positive_gt_0 := exp_pos |}.

(** One training point, one inducing point, one latent function. *)
Definition toy (q_diag whiten : bool) (q_mu : mat) (q_sqrt : ndarray) : SVGP :=
  {| X := [[0]]; Y := [[1]]; kern := white_kernel;
     likelihood := gaussian_likelihood; mean_function := zero_mean;
     q_diag := q_diag; whiten := whiten;
     Z := mkParam [[0]] Identity;
     num_latent := 1; num_inducing := 1;
     q_mu := mkParam q_mu Identity;
     q_sqrt := mkParam q_sqrt Identity |}.

(** The one-point model in the natural parameterization with a diagonal
    covariance, and in the whitened one at the prior. *)
Definition toy_natural : SVGP := toy true false [[0]] (Rank2 [[1]]).
Definition toy_prior : SVGP := toy true true [[0]] (Rank2 [[1]]).

(** A predictor to instantiate the statements that hold for every predictor:
    the marginals of the prior, mean zero and variance [Kdiag(Xnew)] for each
    latent function.  It does not stand for module [conditionals]. *)
Definition prior_marginals (Xnew : mat) (kern : Kernel) (num_latent : nat) : mat * mat :=
  (mk_mat (shape0 Xnew) num_latent (fun _ _ => 0),
   mk_mat (shape0 Xnew) num_latent (fun i _ => nth i (Kdiag kern Xnew) 0)).

Definition prior_Conditionals : Conditionals :=
  {| gaussian_gp_predict := fun Xnew _ kern _ _ num_latent =>
       ret (prior_marginals Xnew kern num_latent);
     gaussian_gp_predict_whitened := fun Xnew _ kern _ _ num_latent =>
       ret (prior_marginals Xnew kern num_latent) |}.

(* ================================================================= *)
(** ** Rank-3 arrays, reparameterizations and more small models *)

(** The entry [t[i][j][d]] of a rank-3 array. *)
Definition t3nth (t : tensor3) (i j d : nat) : R := nth d (nth j (nth i t []) []) 0.

(** A rank-3 array of shape [M x N x L]. *)
Definition is_tensor3 (M N L : nat) (t : tensor3) : Prop :=
  length t = M /\ Forall (is_mat N L) t.

(** The model with another parameterization: the flag [whiten] and the
    values of [q_mu] and [q_sqrt]. *)
Definition with_parameters (m : SVGP) (whiten' : bool) (mu : mat) (v : ndarray) : SVGP :=
  {| X := X m; Y := Y m; kern := kern m; likelihood := likelihood m;
     mean_function := mean_function m;
     q_diag := q_diag m; whiten := whiten'; Z := Z m;
     num_latent := num_latent m; num_inducing := num_inducing m;
     q_mu := {| value := mu; transform := transform (q_mu m) |};
     q_sqrt := {| value := v; transform := transform (q_sqrt m) |} |}.

(** The [M x M x L] array whose slice [d] is the matrix [f d]. *)
Definition stack3 (M L : nat) (f : nat -> mat) : tensor3 :=
  tabulate M (fun i => tabulate M (fun j => tabulate L (fun d => mnth (f d) i j))).

(** The lower triangle of slice [d] of [t], as the loop of [build_prior_KL]
    extracts it. *)
Definition lower_slice (M : nat) (t : tensor3) (d : nat) : mat :=
  mk_mat M M (fun i j => if Nat.leb j i then t3nth t i j d else 0).

(** The kernel whose Gram matrix has [-1] everywhere: not positive
    definite. *)
Definition indefinite_kernel : Kernel.
Proof.
  refine {| K := fun A => mk_mat (length A) (length A) (fun _ _ => -1);
            K2 := fun A B => mk_mat (length A) (length B) (fun _ _ => -1);
            Kdiag := fun A => repeat (-1) (length A);
            K_shape := _ |}.
  intros A. unfold mk_mat, tabulate. split.
  - now rewrite length_map, length_seq.
  - apply Forall_forall. intros row Hrow. apply in_map_iff in Hrow.
    destruct Hrow as (i & <- & _). now rewrite length_map, length_seq.
Defined.

(** Two inducing points, one latent function. *)
Definition toy2 (q_diag whiten : bool) (q_mu : mat) (q_sqrt : ndarray) : SVGP :=
  {| X := [[0]]; Y := [[1]]; kern := white_kernel;
     likelihood := gaussian_likelihood; mean_function := zero_mean;
     q_diag := q_diag; whiten := whiten;
     Z := mkParam [[0]; [1]] Identity;
     num_latent := 1; num_inducing := 2;
     q_mu := mkParam q_mu Identity;
     q_sqrt := mkParam q_sqrt Identity |}.

(** One-point models: full covariance in both parameterizations, a rank-2
    [q_sqrt] under [q_diag = false], and a Gram matrix that is not positive
    definite. *)
Definition toy_full_whitened : SVGP := toy false true [[0]] (Rank3 [[[1]]]).
Definition toy_full_natural : SVGP := toy false false [[0]] (Rank3 [[[1]]]).
Definition toy_rank2_full : SVGP := toy false true [[0]] (Rank2 [[1]]).
Definition toy_indefinite : SVGP :=
  {| X := [[0]]; Y := [[1]]; kern := indefinite_kernel;
     likelihood := gaussian_likelihood; mean_function := zero_mean;
     q_diag := true; whiten := false;
     Z := mkParam [[0]] Identity;
     num_latent := 1; num_inducing := 1;
     q_mu := mkParam [[0]] Identity;
     q_sqrt := mkParam (Rank2 [[1]]) Identity |}.

(* ================================================================= *)
(** * Lemmas *)

(** ** Finite sums *)

Lemma bigsum_ext n f g :
  (forall i, (i < n)%nat -> f i = g i) -> bigsum n f = bigsum n g.
Proof.
  induction n as [|n IH]; intros Hfg; simpl; [reflexivity|].
  rewrite IH, (Hfg n); auto.
Qed.

Lemma bigsum_zero n f : (forall i, (i < n)%nat -> f i = 0) -> bigsum n f = 0.
Proof.
  induction n as [|n IH]; intros Hf; simpl; [reflexivity|].
  rewrite IH, (Hf n); auto; lra.
Qed.

Lemma bigsum_plus n f g :
  bigsum n (fun i => f i + g i) = bigsum n f + bigsum n g.
Proof. induction n as [|n IH]; simpl; [lra | rewrite IH; lra]. Qed.

Lemma bigsum_minus n f g :
  bigsum n (fun i => f i - g i) = bigsum n f - bigsum n g.
Proof. induction n as [|n IH]; simpl; [lra | rewrite IH; lra]. Qed.

Lemma bigsum_scal n c f :
  bigsum n (fun i => c * f i) = c * bigsum n f.
Proof. induction n as [|n IH]; simpl; [lra | rewrite IH; lra]. Qed.

Lemma bigsum_scal_r n c f :
  bigsum n (fun i => f i * c) = bigsum n f * c.
Proof. induction n as [|n IH]; simpl; [lra | rewrite IH; lra]. Qed.

Lemma bigsum_swap n m (f : nat -> nat -> R) :
  bigsum n (fun i => bigsum m (fun j => f i j))
  = bigsum m (fun j => bigsum n (fun i => f i j)).
Proof.
  induction n as [|n IH]; simpl.
  - symmetry; apply bigsum_zero; auto.
  - rewrite IH, <- bigsum_plus. reflexivity.
Qed.

Lemma bigsum_app n m f :
  bigsum (n + m) f = bigsum n f + bigsum m (fun k => f (n + k)%nat).
Proof.
  induction m as [|m IH].
  - rewrite Nat.add_0_r; simpl; lra.
  - rewrite Nat.add_succ_r; simpl. rewrite IH; lra.
Qed.

Lemma bigsum_delta n i f :
  (i < n)%nat ->
  bigsum n (fun k => if Nat.eqb k i then f k else 0) = f i.
Proof.
  induction n as [|n IH]; intros Hi; [lia|]. simpl.
  destruct (Nat.eqb_spec n i) as [->|Hne].
  - rewrite bigsum_zero; [lra|].
    intros k Hk. destruct (Nat.eqb_spec k i); [lia | reflexivity].
  - rewrite IH by lia. lra.
Qed.

Lemma bigsum_const n c : bigsum n (fun _ => c) = INR n * c.
Proof.
  induction n as [|n IH]; [simpl; lra|].
  rewrite S_INR. simpl. rewrite IH. lra.
Qed.

(** ** Lists built by index *)

Lemma tabulate_length A n (f : nat -> A) : length (tabulate n f) = n.
Proof. unfold tabulate. now rewrite length_map, length_seq. Qed.

Lemma tabulate_nth A n (f : nat -> A) i d :
  (i < n)%nat -> nth i (tabulate n f) d = f i.
Proof.
  intros Hi. unfold tabulate.
  rewrite (nth_indep _ d (f 0%nat)) by now rewrite length_map, length_seq.
  rewrite map_nth, seq_nth by assumption. reflexivity.
Qed.

Lemma tabulate_S A n (f : nat -> A) :
  tabulate (S n) f = tabulate n f ++ [f n].
Proof. unfold tabulate. rewrite seq_S, map_app. reflexivity. Qed.

Lemma tabulate_ext A n (f g : nat -> A) :
  (forall i, (i < n)%nat -> f i = g i) -> tabulate n f = tabulate n g.
Proof.
  intros Hfg. unfold tabulate. apply map_ext_in.
  intros i Hi. apply in_seq in Hi. apply Hfg. lia.
Qed.

Lemma tabulate_eta n (v : vec) : length v = n -> v = tabulate n (fun i => nth i v 0).
Proof.
  intros Hn. apply (nth_ext _ _ 0 0).
  - now rewrite tabulate_length.
  - intros i Hi. rewrite tabulate_nth by lia. reflexivity.
Qed.

Lemma map_tabulate A B (g : A -> B) n (f : nat -> A) :
  map g (tabulate n f) = tabulate n (fun i => g (f i)).
Proof. unfold tabulate. now rewrite map_map. Qed.

Lemma reduce_sum_app (A : Type) `{Tensor A} (u v : list A) :
  reduce_sum (u ++ v) = reduce_sum u + reduce_sum v.
Proof.
  induction u as [|a u IH]; simpl; [lra|].
  change (fold_right (fun a s => reduce_sum a + s) 0 (u ++ v)) with (reduce_sum (u ++ v)).
  rewrite IH. simpl. lra.
Qed.

Lemma reduce_sum_tabulate (A : Type) `{Tensor A} n (f : nat -> A) :
  reduce_sum (tabulate n f) = bigsum n (fun i => reduce_sum (f i)).
Proof.
  induction n as [|n IH]; [reflexivity|].
  rewrite tabulate_S, reduce_sum_app, IH. simpl. lra.
Qed.

Lemma reduce_sum_mk_mat r c f :
  reduce_sum (mk_mat r c f) = bigsum r (fun i => bigsum c (fun j => f i j)).
Proof.
  unfold mk_mat. rewrite reduce_sum_tabulate.
  apply bigsum_ext; intros i _. now rewrite reduce_sum_tabulate.
Qed.

(** ** Matrices by index *)

Lemma mk_mat_is_mat r c f : is_mat r c (mk_mat r c f).
Proof.
  split; [apply tabulate_length|].
  unfold mk_mat, tabulate. apply Forall_forall. intros row Hin.
  apply in_map_iff in Hin. destruct Hin as (i & <- & _).
  now rewrite length_map, length_seq.
Qed.

Lemma mnth_mk_mat r c f i j :
  (i < r)%nat -> (j < c)%nat -> mnth (mk_mat r c f) i j = f i j.
Proof.
  intros Hi Hj. unfold mnth, mk_mat.
  rewrite tabulate_nth by assumption. now rewrite tabulate_nth.
Qed.

Lemma is_mat_row r c A i : is_mat r c A -> (i < r)%nat -> length (nth i A []) = c.
Proof.
  intros [Hr Hc] Hi. rewrite Forall_forall in Hc. apply Hc, nth_In. lia.
Qed.

Lemma mat_eta r c A : is_mat r c A -> A = mk_mat r c (mnth A).
Proof.
  intros HA. destruct HA as [Hr Hc] eqn:E. clear E.
  apply (nth_ext _ _ [] []).
  - unfold mk_mat. now rewrite tabulate_length.
  - intros i Hi. unfold mk_mat. rewrite tabulate_nth by lia.
    apply tabulate_eta. apply (is_mat_row (r:=r)); [split; assumption | lia].
Qed.

Lemma mk_mat_ext r c f g :
  (forall i j, (i < r)%nat -> (j < c)%nat -> f i j = g i j) ->
  mk_mat r c f = mk_mat r c g.
Proof.
  intros Hfg. unfold mk_mat. apply tabulate_ext. intros i Hi.
  apply tabulate_ext. intros j Hj. now apply Hfg.
Qed.

Lemma tmap_mk_mat g r c f :
  tmap g (mk_mat r c f) = mk_mat r c (fun i j => g (f i j)).
Proof.
  unfold mk_mat. simpl. rewrite map_tabulate. apply tabulate_ext.
  intros i _. now rewrite map_tabulate.
Qed.

Lemma shape0_mk_mat r c f : shape0 (mk_mat r c f) = r.
Proof. apply tabulate_length. Qed.

Lemma shape1_mk_mat r c f : (0 < r)%nat -> shape1 (mk_mat r c f) = c.
Proof.
  intros Hr. unfold shape1, mk_mat. destruct r; [lia|].
  unfold tabulate at 1. simpl. apply tabulate_length.
Qed.

Lemma is_mat_shape1 r c A : is_mat r c A -> (0 < r)%nat -> shape1 A = c.
Proof.
  intros [Hr Hc] Hpos. unfold shape1. destruct A as [|a A]; simpl in *; [lia|].
  now inversion Hc.
Qed.

Lemma bigsum_S_head n f :
  bigsum (S n) f = f 0%nat + bigsum n (fun k => f (S k)).
Proof.
  change (S n) with (1 + n)%nat. rewrite bigsum_app. simpl. lra.
Qed.

Lemma bigsum_split n i f :
  (i < n)%nat ->
  bigsum n f = bigsum i f + (f i + bigsum (n - S i) (fun k => f (S i + k)%nat)).
Proof.
  intros Hi. replace n with (i + S (n - S i))%nat at 1 by lia.
  rewrite bigsum_app, bigsum_S_head. f_equal. f_equal.
  - f_equal; lia.
  - apply bigsum_ext; intros k _. f_equal; lia.
Qed.

Lemma map2_length A B C (f : A -> B -> C) u v :
  length (map2 f u v) = Nat.min (length u) (length v).
Proof.
  revert v; induction u as [|a u IH]; intros [|b v]; simpl; auto.
Qed.

Lemma map2_nth A B C (f : A -> B -> C) u v i da db dc :
  (i < length u)%nat -> (i < length v)%nat ->
  nth i (map2 f u v) dc = f (nth i u da) (nth i v db).
Proof.
  revert v i; induction u as [|a u IH]; intros [|b v] [|i]; simpl; intros; try lia; auto.
  apply IH; lia.
Qed.

Lemma vscale_length c v : length (vscale c v) = length v.
Proof. apply length_map. Qed.

Lemma vscale_nth c v i : nth i (vscale c v) 0 = c * nth i v 0.
Proof.
  unfold vscale. rewrite <- (Rmult_0_r c) at 1. apply map_nth.
Qed.

Lemma vsub_nth u v i :
  length u = length v -> nth i (vsub u v) 0 = nth i u 0 - nth i v 0.
Proof.
  intros Hl. destruct (Nat.lt_ge_cases i (length u)) as [Hi|Hi].
  - unfold vsub. apply map2_nth; lia.
  - rewrite !nth_overflow; try lia; [lra|].
    unfold vsub. rewrite map2_length. lia.
Qed.

Lemma vadd_nth u v i :
  length u = length v -> nth i (vadd u v) 0 = nth i u 0 + nth i v 0.
Proof.
  intros Hl. destruct (Nat.lt_ge_cases i (length u)) as [Hi|Hi].
  - unfold vadd. apply map2_nth; lia.
  - rewrite !nth_overflow; try lia; [lra|].
    unfold vadd. rewrite map2_length. lia.
Qed.

Lemma dotrows_cons w c0 c x Xs :
  dotrows w (c0 :: c) (x :: Xs) = vadd (vscale c0 x) (dotrows w c Xs).
Proof. reflexivity. Qed.

Lemma dotrows_nil_l w Xs : dotrows w [] Xs = repeat 0 w.
Proof. reflexivity. Qed.

Lemma dotrows_nil_r w c : dotrows w c [] = repeat 0 w.
Proof. unfold dotrows. now rewrite combine_nil. Qed.

Lemma dotrows_length w c Xs :
  Forall (fun row => length row = w) Xs -> length (dotrows w c Xs) = w.
Proof.
  revert Xs; induction c as [|c0 c IH]; intros [|x Xs] HX;
    rewrite ?dotrows_nil_l, ?dotrows_nil_r; try apply repeat_length.
  inversion HX; subst. rewrite dotrows_cons. unfold vadd.
  rewrite map2_length, vscale_length.
  rewrite (IH Xs) by assumption. lia.
Qed.

Lemma dotrows_nth w c Xs j :
  Forall (fun row => length row = w) Xs ->
  nth j (dotrows w c Xs) 0
  = bigsum (Nat.min (length c) (length Xs)) (fun k => nth k c 0 * mnth Xs k j).
Proof.
  revert Xs; induction c as [|c0 c IH]; intros [|x Xs] HX;
    rewrite ?dotrows_nil_l, ?dotrows_nil_r; try (now rewrite nth_repeat).
  inversion HX; subst. rewrite dotrows_cons.
  rewrite vadd_nth by now rewrite vscale_length, dotrows_length.
  rewrite vscale_nth, IH by assumption.
  simpl length. simpl Nat.min. rewrite bigsum_S_head. reflexivity.
Qed.

Lemma Forall_firstn_of A (P : A -> Prop) k l : Forall P l -> Forall P (firstn k l).
Proof.
  intros Hl. rewrite <- (firstn_skipn k l) in Hl. now apply Forall_app in Hl.
Qed.

Lemma Forall_skipn_of A (P : A -> Prop) k l : Forall P l -> Forall P (skipn k l).
Proof.
  intros Hl. rewrite <- (firstn_skipn k l) in Hl. now apply Forall_app in Hl.
Qed.

(** ** Forward substitution *)

Lemma forward_subst_rows w Ls Bs acc :
  Forall (fun row => length row = w) acc ->
  Forall (fun row => length row = w) Bs ->
  Forall (fun row => length row = w) (forward_subst Ls Bs acc).
Proof.
  revert Bs acc; induction Ls as [|l Ls IH]; intros [|b Bs] acc Hacc HB; simpl; auto.
  inversion HB; subst. apply IH; [|assumption].
  apply Forall_app; split; [assumption|]. constructor; [|constructor].
  rewrite vscale_length. unfold vsub. rewrite map2_length, dotrows_length by assumption.
  lia.
Qed.

Lemma forward_subst_spec Ls : forall Bs acc,
  length Ls = length Bs ->
  length (forward_subst Ls Bs acc) = (length acc + length Ls)%nat /\
  firstn (length acc) (forward_subst Ls Bs acc) = acc /\
  forall k, (k < length Ls)%nat ->
    nth (length acc + k) (forward_subst Ls Bs acc) []
    = vscale (/ nth (length acc + k) (nth k Ls []) 0)
        (vsub (nth k Bs [])
           (dotrows (length (nth k Bs [])) (nth k Ls [])
              (firstn (length acc + k) (forward_subst Ls Bs acc)))).
Proof.
  induction Ls as [|l Ls IH]; intros [|b Bs] acc Hlen; simpl in Hlen; try discriminate.
  - simpl. repeat split; [lia | apply firstn_all | intros; lia].
  - simpl forward_subst.
    set (x := vscale _ _).
    destruct (IH Bs (acc ++ [x]) ltac:(lia)) as (Hl & Hf & Hk).
    rewrite length_app in Hl, Hf, Hk. simpl in Hl, Hf, Hk.
    assert (Hacc : firstn (length acc) (forward_subst Ls Bs (acc ++ [x])) = acc).
    { transitivity (firstn (length acc)
                      (firstn (length acc + 1) (forward_subst Ls Bs (acc ++ [x])))).
      - rewrite firstn_firstn. f_equal. lia.
      - rewrite Hf, firstn_app, Nat.sub_diag, firstn_all. simpl. apply app_nil_r. }
    repeat split.
    + simpl. lia.
    + assumption.
    + intros [|k] Hklt.
      * rewrite Nat.add_0_r. cbn [nth].
        rewrite Hacc.
        transitivity (nth (length acc)
                        (firstn (length acc + 1) (forward_subst Ls Bs (acc ++ [x]))) []).
        { rewrite nth_firstn.
          replace (length acc <? length acc + 1)%nat with true
            by (symmetry; apply Nat.ltb_lt; lia).
          reflexivity. }
        rewrite Hf, app_nth2, Nat.sub_diag by lia. reflexivity.
      * simpl in Hklt. cbn [nth].
        replace (length acc + S k)%nat with (length acc + 1 + k)%nat by lia.
        apply Hk. lia.
Qed.

Lemma solve_lower_is_mat n w L B :
  length L = n -> is_mat n w B -> is_mat n w (triangular_solve L B lower).
Proof.
  intros HL [HBr HBc]. split.
  - simpl. destruct (@forward_subst_spec L B [] ltac:(lia)) as (Hl & _). simpl in Hl. lia.
  - simpl. apply forward_subst_rows; auto.
Qed.

Lemma solve_lower_entry n w L B i j :
  is_mat n n L -> is_mat n w B -> (i < n)%nat ->
  mnth (triangular_solve L B lower) i j
  = / mnth L i i * (mnth B i j
      - bigsum i (fun k => mnth L i k * mnth (triangular_solve L B lower) k j)).
Proof.
  intros HL HB Hi.
  pose proof (@solve_lower_is_mat n w L B (proj1 HL) HB) as HX.
  destruct HL as [HLr HLc]. destruct HB as [HBr HBc].
  destruct (@forward_subst_spec L B [] ltac:(lia)) as (_ & _ & Hk).
  specialize (Hk i ltac:(lia)). simpl in Hk.
  unfold mnth at 1. simpl triangular_solve in *. rewrite Hk.
  assert (Hbi : length (nth i B []) = w) by (apply (@is_mat_row n); [split; auto | lia]).
  assert (Hli : length (nth i L []) = n) by (apply (@is_mat_row n); [split; auto | lia]).
  assert (Hfw : Forall (fun row => length row = w) (firstn i (forward_subst L B []))).
  { apply Forall_firstn_of. now destruct HX. }
  rewrite vscale_nth. rewrite vsub_nth by (rewrite dotrows_length; rewrite Hbi; auto).
  rewrite Hbi, (dotrows_nth _ _ Hfw).
  rewrite length_firstn, Hli. destruct HX as [HXr _]. simpl in HXr. rewrite HXr.
  replace (Nat.min n (Nat.min i n)) with i by lia.
  unfold mnth. f_equal. f_equal. apply bigsum_ext. intros k Hklt.
  rewrite nth_firstn. replace (k <? i)%nat with true by (symmetry; apply Nat.ltb_lt; lia).
  reflexivity.
Qed.

(** [L X = B]. *)
Lemma solve_lower_correct n w L B i j :
  is_mat n n L -> is_mat n w B -> lower_tri n L -> diag_nonzero n L ->
  (i < n)%nat ->
  bigsum n (fun k => mnth L i k * mnth (triangular_solve L B lower) k j) = mnth B i j.
Proof.
  intros HL HB Htri Hd Hi.
  rewrite (bigsum_split _ Hi).
  rewrite (@bigsum_zero (n - S i)).
  2:{ intros k Hk. rewrite Htri; [lra | lia | lia]. }
  cbv beta.
  rewrite (solve_lower_entry j HL HB Hi) at 1.
  specialize (Hd i Hi). field. assumption.
Qed.

(** ** Back substitution *)

Lemma back_subst_length n Us : forall Bs,
  length Us = length Bs -> length (back_subst n Us Bs) = length Us.
Proof.
  induction Us as [|u Us IH]; intros [|b Bs] Hl; simpl in *; try discriminate; auto.
Qed.

Lemma back_subst_rows n w Us : forall Bs,
  Forall (fun row => length row = w) Bs ->
  Forall (fun row => length row = w) (back_subst n Us Bs).
Proof.
  induction Us as [|u Us IH]; intros [|b Bs] HB; simpl; auto.
  inversion HB; subst. constructor; [|now apply IH].
  rewrite vscale_length. unfold vsub. rewrite map2_length, dotrows_length by now apply IH.
  lia.
Qed.

Lemma back_subst_spec n Us : forall Bs,
  length Us = length Bs -> (length Us <= n)%nat ->
  forall k, (k < length Us)%nat ->
    nth k (back_subst n Us Bs) []
    = vscale (/ nth (n - length Us + k) (nth k Us []) 0)
        (vsub (nth k Bs [])
           (dotrows (length (nth k Bs []))
              (skipn (S (n - length Us + k)) (nth k Us []))
              (skipn (S k) (back_subst n Us Bs)))).
Proof.
  induction Us as [|u Us IH]; intros [|b Bs] Hl Hn k Hk; simpl in Hl, Hn, Hk;
    try discriminate; try lia.
  destruct k as [|k].
  - cbn [back_subst nth length]. rewrite Nat.add_0_r. reflexivity.
  - cbn [back_subst nth length].
    rewrite (IH Bs) by lia.
    replace (n - S (length Us) + S k)%nat with (n - length Us + k)%nat by lia.
    reflexivity.
Qed.

Lemma solve_upper_is_mat n w U B :
  length U = n -> is_mat n w B -> is_mat n w (triangular_solve U B upper).
Proof.
  intros HU [HBr HBc]. split.
  - simpl. rewrite back_subst_length; lia.
  - simpl. now apply back_subst_rows.
Qed.

Lemma solve_upper_entry n w U B i j :
  is_mat n n U -> is_mat n w B -> (i < n)%nat ->
  mnth (triangular_solve U B upper) i j
  = / mnth U i i * (mnth B i j
      - bigsum (n - S i)
          (fun k => mnth U i (S i + k) * mnth (triangular_solve U B upper) (S i + k) j)).
Proof.
  intros HU HB Hi.
  pose proof (@solve_upper_is_mat n w U B (proj1 HU) HB) as HX.
  destruct HU as [HUr HUc]. destruct HB as [HBr HBc].
  pose proof (@back_subst_spec n U B ltac:(lia) ltac:(lia) i ltac:(lia)) as Hk.
  rewrite HUr, Nat.sub_diag in Hk. simpl Nat.add in Hk.
  unfold mnth at 1. simpl triangular_solve in *. rewrite HUr. rewrite Hk.
  assert (Hbi : length (nth i B []) = w) by (apply (@is_mat_row n); [split; auto | lia]).
  assert (Hui : length (nth i U []) = n) by (apply (@is_mat_row n); [split; auto | lia]).
  assert (Hfw : Forall (fun row => length row = w) (skipn (S i) (back_subst n U B))).
  { apply Forall_skipn_of. rewrite HUr in HX. now destruct HX. }
  rewrite vscale_nth. rewrite vsub_nth by (rewrite dotrows_length; rewrite Hbi; auto).
  rewrite Hbi, (dotrows_nth _ _ Hfw).
  rewrite !length_skipn, Hui. destruct HX as [HXr _]. simpl in HXr.
  rewrite HUr in HXr. rewrite HXr.
  rewrite Nat.min_id.
  unfold mnth. f_equal. f_equal. apply bigsum_ext. intros k Hklt.
  rewrite !nth_skipn. reflexivity.
Qed.

(** [U X = B]. *)
Lemma solve_upper_correct n w U B i j :
  is_mat n n U -> is_mat n w B -> upper_tri n U -> diag_nonzero n U ->
  (i < n)%nat ->
  bigsum n (fun k => mnth U i k * mnth (triangular_solve U B upper) k j) = mnth B i j.
Proof.
  intros HU HB Htri Hd Hi.
  rewrite (bigsum_split _ Hi).
  rewrite (@bigsum_zero i).
  2:{ intros k Hk. rewrite Htri; [lra | lia | lia]. }
  cbv beta.
  rewrite (solve_upper_entry j HU HB Hi) at 1.
  specialize (Hd i Hi). field. assumption.
Qed.

(** ** Transposition *)

Lemma transpose_is_mat n A : is_mat n n A -> is_mat n n (tf_transpose A).
Proof.
  intros HA. unfold tf_transpose.
  destruct n as [|n].
  - destruct HA as [Hr _]. destruct A; [|discriminate]. split; [reflexivity | constructor].
  - rewrite (is_mat_shape1 HA) by lia. destruct HA as [Hr Hc]. unfold shape0. rewrite Hr.
    apply mk_mat_is_mat.
Qed.

Lemma transpose_mnth n A i j :
  is_mat n n A -> (i < n)%nat -> (j < n)%nat ->
  mnth (tf_transpose A) i j = mnth A j i.
Proof.
  intros HA Hi Hj. unfold tf_transpose.
  rewrite (is_mat_shape1 HA) by lia. destruct HA as [Hr Hc]. unfold shape0. rewrite Hr.
  now rewrite mnth_mk_mat.
Qed.

(** ** The identity matrix *)

Lemma eye_is_mat n : is_mat n n (np_eye n).
Proof. apply mk_mat_is_mat. Qed.

Lemma eye_mnth n i j :
  (i < n)%nat -> (j < n)%nat -> mnth (np_eye n) i j = if Nat.eqb i j then 1 else 0.
Proof. intros. unfold np_eye. now rewrite mnth_mk_mat. Qed.

(** ** The inverse Gram matrix from a triangular factor

    With [R = L^-1] by forward substitution and [Kinv] the back substitution
    of [R] against [L^T], [Kinv = R^T R]. *)
Section Inverse.

Variables (n : nat) (L : mat).
Hypothesis L_mat : is_mat n n L.
Hypothesis L_lower : lower_tri n L.
Hypothesis L_diag : diag_nonzero n L.

Let Rm : mat := triangular_solve L (np_eye n) lower.
Let Kinv : mat := triangular_solve (tf_transpose L) Rm upper.

Lemma Linv_is_mat : is_mat n n Rm.
Proof. apply solve_lower_is_mat; [apply L_mat | apply eye_is_mat]. Qed.

Lemma Kinv_is_mat : is_mat n n Kinv.
Proof.
  apply solve_upper_is_mat; [apply transpose_is_mat, L_mat | apply Linv_is_mat].
Qed.

Lemma Linv_right i j :
  (i < n)%nat -> (j < n)%nat ->
  bigsum n (fun k => mnth L i k * mnth Rm k j) = if Nat.eqb i j then 1 else 0.
Proof.
  intros Hi Hj. unfold Rm.
  rewrite (solve_lower_correct j L_mat (eye_is_mat n) L_lower L_diag Hi).
  now apply eye_mnth.
Qed.

Lemma transpose_upper : upper_tri n (tf_transpose L).
Proof.
  intros i j Hji Hi. rewrite (transpose_mnth L_mat) by lia. apply L_lower; lia.
Qed.

Lemma transpose_diag : diag_nonzero n (tf_transpose L).
Proof.
  intros i Hi. rewrite (transpose_mnth L_mat) by lia. now apply L_diag.
Qed.

Lemma Kinv_back i j :
  (i < n)%nat -> (j < n)%nat ->
  bigsum n (fun k => mnth L k i * mnth Kinv k j) = mnth Rm i j.
Proof.
  intros Hi Hj.
  rewrite <- (solve_upper_correct j (transpose_is_mat L_mat) Linv_is_mat
                transpose_upper transpose_diag Hi).
  apply bigsum_ext. intros k Hk. fold Kinv.
  now rewrite (transpose_mnth L_mat).
Qed.

Lemma Kinv_gram a b :
  (a < n)%nat -> (b < n)%nat ->
  mnth Kinv a b = bigsum n (fun i => mnth Rm i a * mnth Rm i b).
Proof.
  intros Ha Hb.
  transitivity (bigsum n (fun i => mnth Rm i a
                   * bigsum n (fun k => mnth L k i * mnth Kinv k b))).
  2:{ apply bigsum_ext. intros i Hi. now rewrite Kinv_back. }
  transitivity (bigsum n (fun k =>
                   bigsum n (fun i => mnth L k i * mnth Rm i a) * mnth Kinv k b)).
  - transitivity (bigsum n (fun k => (if Nat.eqb k a then mnth Kinv k b else 0))).
    + now rewrite bigsum_delta.
    + apply bigsum_ext. intros k Hk. rewrite Linv_right by assumption.
      destruct (Nat.eqb k a); lra.
  - transitivity (bigsum n (fun k => bigsum n (fun i =>
                     mnth Rm i a * (mnth L k i * mnth Kinv k b)))).
    + apply bigsum_ext. intros k Hk. rewrite <- bigsum_scal_r.
      apply bigsum_ext. intros i Hi. lra.
    + rewrite bigsum_swap. apply bigsum_ext. intros i Hi.
      now rewrite bigsum_scal.
Qed.

End Inverse.

(** ** Shape of the Cholesky factor *)

Lemma chol_row_length a Lprev : forall y,
  length (chol_row a Lprev y) = (length y + length Lprev)%nat.
Proof.
  induction Lprev as [|r rest IH]; intros y; simpl; [lia|].
  rewrite IH, length_app. simpl. lia.
Qed.

Lemma chol_inv_snoc n acc y d :
  chol_inv n acc -> (length acc < n)%nat -> length y = length acc -> 0 < d ->
  chol_inv n (acc ++ [y ++ sqrt d :: repeat 0 (n - S (length acc))]).
Proof.
  intros [Hw Hi] Hlt Hy Hd. split.
  - apply Forall_app; split; [assumption|]. constructor; [|constructor].
    rewrite length_app. simpl. rewrite repeat_length. lia.
  - intros i Hlen. rewrite length_app in Hlen. simpl in Hlen.
    destruct (Nat.lt_ge_cases i (length acc)) as [Hin|Hout].
    + unfold mnth. rewrite app_nth1 by assumption.
      destruct (Hi i Hin) as [Hp Hz]. split; [exact Hp|].
      intros j Hj. apply Hz; assumption.
    + assert (i = length acc) by lia. subst i.
      unfold mnth. rewrite app_nth2, Nat.sub_diag by lia. cbn [nth].
      split.
      * rewrite app_nth2, Hy, Nat.sub_diag by lia. cbn [nth].
        now apply sqrt_lt_R0.
      * intros j Hj. rewrite app_nth2 by lia. rewrite Hy.
        destruct (j - length acc)%nat as [|k] eqn:E; [lia|]. cbn [nth].
        destruct (Nat.lt_ge_cases k (n - S (length acc))) as [Hk|Hk].
        -- now rewrite nth_repeat_lt.
        -- rewrite nth_overflow; [reflexivity | now rewrite repeat_length].
Qed.

Lemma chol_rows_inv n As : forall acc L,
  chol_rows n As acc = Some L ->
  (length acc + length As = n)%nat ->
  chol_inv n acc ->
  length L = n /\ chol_inv n L.
Proof.
  induction As as [|a As IH]; intros acc L HL Hlen Hinv; simpl in HL.
  - injection HL as <-. simpl in Hlen. split; [lia | assumption].
  - destruct (Rlt_dec 0 _) as [Hd|Hd]; [|discriminate].
    simpl in Hlen. apply IH in HL; [assumption | |].
    + rewrite length_app. simpl. lia.
    + apply chol_inv_snoc; [assumption | lia | | assumption].
      now rewrite chol_row_length.
Qed.

Lemma cholesky_shape n A L :
  length A = n -> cholesky A = Some L ->
  is_mat n n L /\ lower_tri n L /\ (forall i, (i < n)%nat -> 0 < mnth L i i).
Proof.
  intros Hn HL. unfold cholesky in HL. rewrite Hn in HL.
  apply chol_rows_inv in HL.
  - destruct HL as (Hlen & Hw & Hi). repeat split.
    + assumption.
    + assumption.
    + intros i j Hij Hj. apply (Hi i); lia.
    + intros i Hlt. apply (Hi i); lia.
  - simpl. lia.
  - split; [constructor | simpl; intros; lia].
Qed.

(** ** Broadcasting on operands of one shape *)

Lemma bcast_same_length A (f : A -> A -> A) u v :
  length u = length v -> bcast f u v = map2 f u v.
Proof.
  destruct u as [|a [|a' u]], v as [|b [|b' v]]; simpl; intros Hl;
    try discriminate; reflexivity.
Qed.

Lemma map2_app A B C (f : A -> B -> C) u : forall v u' v',
  length u = length v ->
  map2 f (u ++ u') (v ++ v') = map2 f u v ++ map2 f u' v'.
Proof.
  induction u as [|x u IH]; intros [|y v] u' v' Hl; simpl in *; try discriminate;
    [reflexivity|].
  f_equal. apply IH. lia.
Qed.

Lemma map2_tabulate A B C (f : A -> B -> C) n g h :
  map2 f (tabulate n g) (tabulate n h) = tabulate n (fun i => f (g i) (h i)).
Proof.
  induction n as [|n IH]; [reflexivity|].
  rewrite !tabulate_S, <- IH. apply map2_app. now rewrite !tabulate_length.
Qed.

Lemma tf_add_mk_mat r c f g :
  tf_add (mk_mat r c f) (mk_mat r c g) = mk_mat r c (fun i j => f i j + g i j).
Proof.
  unfold tf_add. rewrite bcast_same_length
    by (unfold mk_mat; now rewrite !tabulate_length).
  unfold mk_mat. rewrite map2_tabulate. apply tabulate_ext. intros i _.
  rewrite bcast_same_length by now rewrite !tabulate_length.
  apply map2_tabulate.
Qed.

Lemma tf_scale_mk_mat r c f x :
  tf_scale (mk_mat r c f) x = mk_mat r c (fun i j => f i j * x).
Proof. unfold tf_scale. apply (tmap_mk_mat (fun y => y * x)). Qed.

Lemma tf_mul_expand_dims r c v f :
  tf_mul (expand_dims1 (tabulate r v)) (mk_mat r c f)
  = mk_mat r c (fun i j => v i * f i j).
Proof.
  unfold tf_mul, expand_dims1. rewrite map_tabulate.
  rewrite bcast_same_length by (unfold mk_mat; now rewrite !tabulate_length).
  unfold mk_mat. rewrite map2_tabulate. apply tabulate_ext. intros i _.
  cbn [bcast]. apply map_tabulate.
Qed.

Lemma is_mat_sq_shape1 n A : is_mat n n A -> shape1 A = n.
Proof.
  intros HA. destruct n as [|n].
  - destruct HA as [Hr _]. destruct A; [reflexivity | discriminate].
  - apply (is_mat_shape1 HA). lia.
Qed.

Lemma get_diag_sq n A : is_mat n n A -> get_diag A = tabulate n (fun i => mnth A i i).
Proof.
  intros HA. unfold get_diag. rewrite (is_mat_sq_shape1 HA).
  destruct HA as [Hr _]. unfold shape0. rewrite Hr, Nat.min_id. reflexivity.
Qed.

Lemma triangle_lower_sq n f :
  triangle (mk_mat n n f) lower = mk_mat n n (fun i j => if Nat.leb j i then f i j else 0).
Proof.
  unfold triangle. rewrite (is_mat_sq_shape1 (mk_mat_is_mat n n f)), shape0_mk_mat.
  apply mk_mat_ext. intros i j Hi Hj. now rewrite mnth_mk_mat.
Qed.

(** The jittered Gram matrix, entry by entry. *)
Lemma jitter_gram n KZ :
  is_mat n n KZ ->
  tf_add KZ (tf_scale (np_eye n) 1e-6)
  = mk_mat n n (fun i j => mnth KZ i j + (if Nat.eqb i j then 1e-6 else 0)).
Proof.
  intros HK. rewrite (mat_eta HK) at 1. unfold np_eye.
  rewrite tf_scale_mk_mat, tf_add_mk_mat. apply mk_mat_ext. intros i j _ _.
  destruct (Nat.eqb i j); lra.
Qed.

(** ** Loops *)

Lemma for_loop_pure A (g : nat -> A -> A) body ds : forall acc s,
  (forall d a s', In d ds -> body d a s' = (Some (g d a), s')) ->
  for_loop ds acc body s = (Some (fold_left (fun a d => g d a) ds acc), s).
Proof.
  induction ds as [|d ds IH]; intros acc s Hb; [reflexivity|].
  simpl. unfold bind. rewrite Hb by now left.
  apply IH. intros. apply Hb. now right.
Qed.

Lemma fold_left_sum h n : forall a0,
  fold_left (fun a d => a + h d) (seq 0 n) a0 = a0 + bigsum n h.
Proof.
  induction n as [|n IH]; intros a0; [simpl; lra|].
  rewrite seq_S, fold_left_app, IH. simpl. lra.
Qed.

Lemma fold_left_ext_in A B (f g : A -> B -> A) l : forall a,
  (forall a b, In b l -> f a b = g a b) -> fold_left f l a = fold_left g l a.
Proof.
  induction l as [|b l IH]; intros a Hfg; [reflexivity|].
  simpl. rewrite Hfg by now left. apply IH. intros. apply Hfg. now right.
Qed.

(** ** Slices of a stack of diagonal matrices *)

Lemma forallb_tabulate A (p : A -> bool) n f :
  (forall i, (i < n)%nat -> p (f i) = true) -> forallb p (tabulate n f) = true.
Proof.
  intros Hp. apply forallb_forall. intros x Hx. unfold tabulate in Hx.
  apply in_map_iff in Hx. destruct Hx as (i & <- & Hi). apply in_seq in Hi.
  apply Hp. lia.
Qed.

Lemma slice3_diag_stack M L s d :
  (d < L)%nat ->
  slice3 (diag_stack M L s) d
  = Some (mk_mat M M (fun i j => if Nat.eqb i j then mnth s i d else 0)).
Proof.
  intros Hd. unfold slice3, diag_stack.
  rewrite forallb_tabulate.
  - f_equal. unfold mk_mat. rewrite map_tabulate. apply tabulate_ext. intros i _.
    rewrite map_tabulate. apply tabulate_ext. intros j _.
    now rewrite tabulate_nth.
  - intros i _. apply forallb_tabulate. intros j _. rewrite tabulate_length.
    now apply Nat.ltb_lt.
Qed.

(** ** Forward substitution commutes with a scaling of the columns *)

Lemma solve_lower_scale_cols n w L B c :
  is_mat n n L -> is_mat n w B ->
  forall i j, (i < n)%nat -> (j < w)%nat ->
  mnth (triangular_solve L (mk_mat n w (fun i j => mnth B i j * c j)) lower) i j
  = mnth (triangular_solve L B lower) i j * c j.
Proof.
  intros HL HB i. induction i as [i IH] using lt_wf_ind. intros j Hi Hj.
  rewrite (solve_lower_entry j HL (mk_mat_is_mat n w _) Hi).
  rewrite (solve_lower_entry j HL HB Hi).
  rewrite mnth_mk_mat by assumption.
  rewrite (@bigsum_ext i _ (fun k => mnth L i k * mnth (triangular_solve L B lower) k j * c j)).
  - rewrite bigsum_scal_r. ring.
  - intros k Hk. rewrite IH by lia. ring.
Qed.

Lemma diag_as_scaled_eye n (v : nat -> R) :
  mk_mat n n (fun i j => if Nat.eqb i j then v i else 0)
  = mk_mat n n (fun i j => mnth (np_eye n) i j * v j).
Proof.
  apply mk_mat_ext. intros i j Hi Hj. rewrite eye_mnth by assumption.
  destruct (Nat.eqb_spec i j); [subst; lra | lra].
Qed.

Lemma triangle_diag n (v : nat -> R) :
  triangle (mk_mat n n (fun i j => if Nat.eqb i j then v i else 0)) lower
  = mk_mat n n (fun i j => if Nat.eqb i j then v i else 0).
Proof.
  rewrite triangle_lower_sq. apply mk_mat_ext. intros i j _ _.
  destruct (Nat.eqb_spec i j); [subst; now rewrite Nat.leb_refl|].
  now destruct (Nat.leb j i).
Qed.

Lemma get_diag_diag n (v : nat -> R) :
  get_diag (mk_mat n n (fun i j => if Nat.eqb i j then v i else 0)) = tabulate n v.
Proof.
  rewrite (get_diag_sq (mk_mat_is_mat n n _)). apply tabulate_ext. intros i Hi.
  rewrite mnth_mk_mat by assumption. now rewrite Nat.eqb_refl.
Qed.

Lemma sumsq_diag n (v : nat -> R) :
  reduce_sum (tf_square (mk_mat n n (fun i j => if Nat.eqb i j then v i else 0)))
  = bigsum n (fun i => v i * v i).
Proof.
  unfold tf_square. rewrite tmap_mk_mat, reduce_sum_mk_mat.
  apply bigsum_ext. intros i Hi.
  rewrite (@bigsum_ext n _ (fun j => if Nat.eqb j i then v i * v i else 0)).
  - now rewrite (bigsum_delta (fun _ => v i * v i) Hi).
  - intros j _. rewrite Nat.eqb_sym. destruct (Nat.eqb j i); lra.
Qed.

Lemma logsq_vec n (v : nat -> R) :
  reduce_sum (tf_log (tf_square (tabulate n v))) = bigsum n (fun i => ln (v i * v i)).
Proof.
  unfold tf_log, tf_square. simpl tmap. rewrite !map_tabulate.
  now rewrite (reduce_sum_tabulate (A:=R)).
Qed.

Lemma logsq_mat r c (s : mat) :
  is_mat r c s ->
  reduce_sum (tf_log (tf_square s))
  = bigsum r (fun i => bigsum c (fun j => ln (mnth s i j * mnth s i j))).
Proof.
  intros Hs. rewrite (mat_eta Hs) at 1. unfold tf_log, tf_square.
  now rewrite !tmap_mk_mat, reduce_sum_mk_mat.
Qed.

Lemma sumsq_mat r c (s : mat) :
  is_mat r c s ->
  reduce_sum (tf_square s)
  = bigsum r (fun i => bigsum c (fun j => mnth s i j * mnth s i j)).
Proof.
  intros Hs. rewrite (mat_eta Hs) at 1. unfold tf_square.
  now rewrite !tmap_mk_mat, reduce_sum_mk_mat.
Qed.

(** ** Dot products *)

Lemma reduce_sum_vec (v : vec) : reduce_sum v = bigsum (length v) (fun i => nth i v 0).
Proof.
  rewrite (tabulate_eta v eq_refl) at 1. now rewrite (reduce_sum_tabulate (A:=R)).
Qed.

Lemma vdot_sum u v :
  vdot u v = bigsum (Nat.min (length u) (length v)) (fun k => nth k u 0 * nth k v 0).
Proof.
  unfold vdot. rewrite reduce_sum_vec, map2_length. apply bigsum_ext.
  intros k Hk. apply map2_nth; lia.
Qed.

(** ** The entries of the Cholesky factor *)

Lemma chol_row_spec a rest : forall y0,
  firstn (length y0) (chol_row a rest y0) = y0 /\
  forall k, (k < length rest)%nat ->
    nth (length y0 + k) (chol_row a rest y0) 0
    = (nth (length y0 + k) a 0
       - vdot (firstn (length y0 + k) (chol_row a rest y0)) (nth k rest []))
      / nth (length y0 + k) (nth k rest []) 0.
Proof.
  induction rest as [|r rest IH]; intros y0.
  - simpl. split; [apply firstn_all | intros; lia].
  - simpl chol_row. set (e := (_ / _)).
    destruct (IH (y0 ++ [e])) as (Hf & Hk).
    rewrite length_app in Hf, Hk. simpl in Hf, Hk.
    assert (Hy0 : firstn (length y0) (chol_row a rest (y0 ++ [e])) = y0).
    { transitivity (firstn (length y0)
                      (firstn (length y0 + 1) (chol_row a rest (y0 ++ [e])))).
      - rewrite firstn_firstn. f_equal. lia.
      - rewrite Hf, firstn_app, Nat.sub_diag, firstn_all. simpl. apply app_nil_r. }
    split; [assumption|].
    intros [|k] Hklt.
    + rewrite Nat.add_0_r. cbn [nth]. rewrite Hy0.
      transitivity (nth (length y0)
                      (firstn (length y0 + 1) (chol_row a rest (y0 ++ [e]))) 0).
      { rewrite nth_firstn.
        replace (length y0 <? length y0 + 1)%nat with true
          by (symmetry; apply Nat.ltb_lt; lia).
        reflexivity. }
      rewrite Hf, app_nth2, Nat.sub_diag by lia. reflexivity.
    + simpl in Hklt. cbn [nth].
      replace (length y0 + S k)%nat with (length y0 + 1 + k)%nat by lia.
      apply Hk. lia.
Qed.

Lemma chol_rows_spec n As : forall acc L,
  chol_rows n As acc = Some L ->
  firstn (length acc) L = acc /\
  forall k, (k < length As)%nat ->
    let i := (length acc + k)%nat in
    let y := chol_row (nth k As []) (firstn i L) [] in
    0 < nth i (nth k As []) 0 - vdot y y /\
    nth i L [] = y ++ sqrt (nth i (nth k As []) 0 - vdot y y) :: repeat 0 (n - S i).
Proof.
  induction As as [|a As IH]; intros acc L HL; simpl in HL.
  - injection HL as <-. split; [apply firstn_all | simpl; intros; lia].
  - destruct (Rlt_dec 0 _) as [Hd|Hd]; [|discriminate].
    destruct (IH _ _ HL) as (Hf & Hk).
    rewrite length_app in Hf, Hk. simpl in Hf, Hk.
    set (row := chol_row a acc [] ++ _) in *.
    assert (Hacc : firstn (length acc) L = acc).
    { transitivity (firstn (length acc) (firstn (length acc + 1) L)).
      - rewrite firstn_firstn. f_equal. lia.
      - rewrite Hf, firstn_app, Nat.sub_diag, firstn_all. simpl. apply app_nil_r. }
    split; [assumption|].
    intros [|k] Hklt.
    + cbn zeta. rewrite Nat.add_0_r. cbn [nth]. rewrite Hacc. split; [assumption|].
      transitivity (nth (length acc) (firstn (length acc + 1) L) []).
      { rewrite nth_firstn.
        replace (length acc <? length acc + 1)%nat with true
          by (symmetry; apply Nat.ltb_lt; lia).
        reflexivity. }
      rewrite Hf, app_nth2, Nat.sub_diag by lia. reflexivity.
    + simpl in Hklt. cbn zeta. cbn [nth].
      replace (length acc + S k)%nat with (length acc + 1 + k)%nat by lia.
      apply Hk. lia.
Qed.

(** [L L^T] agrees with [A] on the lower triangle. *)
Lemma cholesky_gram_lower n A L i j :
  length A = n -> cholesky A = Some L ->
  (j <= i)%nat -> (i < n)%nat ->
  bigsum n (fun k => mnth L i k * mnth L j k) = mnth A i j.
Proof.
  intros Hn HL Hji Hi.
  destruct (@cholesky_shape n A L Hn HL) as (HLm & HLt & HLp).
  unfold cholesky in HL. rewrite Hn in HL.
  destruct (@chol_rows_spec n A [] L HL) as (_ & Hrow).
  simpl in Hrow.
  assert (Hfl : forall i, (i <= n)%nat -> length (firstn i L) = i).
  { intros i0 Hi0. rewrite length_firstn. destruct HLm as [Hr _]. lia. }
  (* the sum stops at the diagonal of row j *)
  assert (Hj : (j < n)%nat) by lia.
  rewrite (bigsum_split _ Hj).
  rewrite (@bigsum_zero (n - S j)).
  2:{ intros k Hk. rewrite (HLt j (S j + k)%nat); [lra | lia | lia]. }
  cbv beta.
  destruct (Hrow i ltac:(lia)) as (Hdi & Hri).
  set (yi := chol_row (nth i A []) (firstn i L) []) in *.
  assert (Hyi : length yi = i).
  { unfold yi. rewrite chol_row_length, Hfl by lia. reflexivity. }
  assert (Hik : forall k, (k < i)%nat -> mnth L i k = nth k yi 0).
  { intros k Hk. unfold mnth. rewrite Hri. apply app_nth1. lia. }
  assert (Hii : mnth L i i = sqrt (nth i (nth i A []) 0 - vdot yi yi)).
  { unfold mnth. rewrite Hri, app_nth2, Hyi, Nat.sub_diag by lia. reflexivity. }
  destruct (proj1 (Nat.lt_eq_cases j i) Hji) as [Hlt|Heq].
  - (* below the diagonal *)
    destruct (chol_row_spec (nth i A []) (firstn i L) []) as (_ & Hy).
    specialize (Hy j). rewrite Hfl in Hy by lia. specialize (Hy Hlt).
    simpl in Hy. fold yi in Hy.
    rewrite nth_firstn in Hy.
    replace (j <? i)%nat with true in Hy by (symmetry; apply Nat.ltb_lt; lia).
    rewrite vdot_sum in Hy. rewrite length_firstn, Hyi in Hy.
    rewrite (is_mat_row HLm Hj) in Hy.
    replace (Nat.min (Nat.min j i) n) with j in Hy by lia.
    rewrite (@bigsum_ext j _ (fun k => nth k yi 0 * mnth L j k)).
    2:{ intros k Hk. rewrite Hik by lia. reflexivity. }
    rewrite (@bigsum_ext j (fun k => nth k (firstn j yi) 0 * _)
               (fun k => nth k yi 0 * mnth L j k)) in Hy.
    2:{ intros k Hk. rewrite nth_firstn.
        replace (k <? j)%nat with true by (symmetry; apply Nat.ltb_lt; lia).
        reflexivity. }
    rewrite (Hik j Hlt), Hy.
    fold (mnth L j j). fold (mnth A i j).
    specialize (HLp j Hj). field. lra.
  - (* on the diagonal *)
    subst j.
    rewrite (@bigsum_ext i _ (fun k => nth k yi 0 * nth k yi 0)).
    2:{ intros k Hk. rewrite Hik by lia. reflexivity. }
    rewrite Hii, sqrt_sqrt by lra.
    rewrite vdot_sum, Hyi, Nat.min_id. fold (mnth A i i). lra.
Qed.

(** ** The inverse of the factorized matrix *)

Lemma cholesky_gram n A L i j :
  length A = n -> cholesky A = Some L -> symmetric n A ->
  (i < n)%nat -> (j < n)%nat ->
  bigsum n (fun k => mnth L i k * mnth L j k) = mnth A i j.
Proof.
  intros Hn HL Hsym Hi Hj.
  destruct (Nat.le_gt_cases j i) as [Hji|Hij].
  - now apply cholesky_gram_lower.
  - rewrite (Hsym i j Hi Hj).
    rewrite <- (@cholesky_gram_lower n A L j i Hn HL) by lia.
    apply bigsum_ext. intros k _. ring.
Qed.

(** The matrix found by the two triangular solves is a right inverse of the
    factorized matrix. *)
Lemma gram_inverse n A L i k :
  length A = n -> cholesky A = Some L -> symmetric n A ->
  (i < n)%nat -> (k < n)%nat ->
  bigsum n (fun j => mnth A i j
     * mnth (triangular_solve (tf_transpose L)
               (triangular_solve L (np_eye n) lower) upper) j k)
  = if Nat.eqb i k then 1 else 0.
Proof.
  intros Hn HL Hsym Hi Hk.
  destruct (@cholesky_shape n A L Hn HL) as (HLm & HLt & HLp).
  assert (HLd : diag_nonzero n L) by (intros a Ha; specialize (HLp a Ha); lra).
  set (Rm := triangular_solve L (np_eye n) lower).
  set (Kinv := triangular_solve (tf_transpose L) Rm upper).
  rewrite <- (Linv_right HLm HLt HLd Hi Hk). fold Rm.
  transitivity (bigsum n (fun j => bigsum n (fun l =>
                  mnth L i l * (mnth L j l * mnth Kinv j k)))).
  - apply bigsum_ext. intros j Hj.
    rewrite <- (@cholesky_gram n A L i j Hn HL Hsym Hi Hj).
    rewrite <- bigsum_scal_r. apply bigsum_ext. intros l _. ring.
  - rewrite bigsum_swap. apply bigsum_ext. intros l Hl.
    rewrite bigsum_scal. f_equal.
    apply (Kinv_back HLm HLt HLd Hl Hk).
Qed.

(** ** Logarithms, constant matrices, identity maps *)

Lemma ln_0 : ln 0 = 0.
Proof.
  unfold ln. destruct (Rlt_dec 0 0) as [H|H]; [exfalso; lra | reflexivity].
Qed.

Lemma ln_square x : ln (x * x) = 2 * ln (Rabs x).
Proof.
  destruct (Req_dec x 0) as [->|Hx].
  - rewrite Rmult_0_l, Rabs_R0, ln_0. lra.
  - assert (Ha : 0 < Rabs x) by now apply Rabs_pos_lt.
    replace (x * x) with (Rabs x * Rabs x).
    + rewrite ln_mult by assumption. lra.
    + rewrite <- Rabs_mult. apply Rabs_pos_eq. nra.
Qed.

Lemma repeat_tabulate A (x : A) n : repeat x n = tabulate n (fun _ => x).
Proof.
  induction n as [|n IH]; [reflexivity|].
  rewrite tabulate_S, <- IH. apply repeat_cons.
Qed.

Lemma np_ones_mk_mat r c : np_ones r c = mk_mat r c (fun _ _ => 1).
Proof.
  unfold np_ones, mk_mat. rewrite repeat_tabulate. apply tabulate_ext.
  intros _ _. apply repeat_tabulate.
Qed.

Lemma np_zeros_mk_mat r c : np_zeros r c = mk_mat r c (fun _ _ => 0).
Proof.
  unfold np_zeros, mk_mat. rewrite repeat_tabulate. apply tabulate_ext.
  intros _ _. apply repeat_tabulate.
Qed.

Lemma sumsq_zero (A : mat) :
  Forall (Forall (fun x => x = 0)) A -> reduce_sum (tf_square A) = 0.
Proof.
  induction 1 as [|row A Hrow _ IH]; [reflexivity|].
  unfold tf_square in *. simpl in *. rewrite IH.
  assert (Hr : fold_right (fun a s => a + s) 0 (map (fun v => v * v) row) = 0).
  { induction Hrow as [|x row Hx _ IHr]; [reflexivity|]. simpl. rewrite IHr, Hx. lra. }
  rewrite Hr. lra.
Qed.

Lemma tmap_id_mat (A : mat) : tmap (fun x => x) A = A.
Proof.
  simpl. rewrite <- (map_id A) at 2. apply map_ext. intros row. apply map_id.
Qed.

Lemma tmap_id_tensor3 (t : tensor3) : tmap (fun x => x) t = t.
Proof.
  simpl. rewrite <- (map_id t) at 2. apply map_ext. intros A.
  apply (tmap_id_mat A).
Qed.

(** ** The factor of the jittered Gram matrix *)

Lemma gram_factor_shape (m : SVGP) L :
  length (value (Z m)) = num_inducing m ->
  cholesky (tf_add (K (kern m) (value (Z m))) (tf_scale (np_eye (num_inducing m)) 1e-6))
  = Some L ->
  is_mat (num_inducing m) (num_inducing m) L /\
  lower_tri (num_inducing m) L /\
  (forall i, (i < num_inducing m)%nat -> 0 < mnth L i i).
Proof.
  intros HZ HL. apply cholesky_shape with (2 := HL).
  pose proof (K_shape (kern m) (value (Z m))) as HK. rewrite HZ in HK.
  rewrite (jitter_gram HK). apply shape0_mk_mat.
Qed.

Lemma pos_diag_nonzero n L :
  (forall i, (i < n)%nat -> 0 < mnth L i i) -> diag_nonzero n L.
Proof. intros H i Hi. specialize (H i Hi). lra. Qed.

Lemma tf_square_eta r c (s : mat) :
  is_mat r c s -> tf_square s = mk_mat r c (fun i j => mnth s i j * mnth s i j).
Proof.
  intros Hs. rewrite (mat_eta Hs) at 1. unfold tf_square. now rewrite tmap_mk_mat.
Qed.

Lemma sumsq_solve_diag n L (v : nat -> R) :
  is_mat n n L ->
  reduce_sum (tf_square (triangular_solve L
                (mk_mat n n (fun i j => if Nat.eqb i j then v i else 0)) lower))
  = bigsum n (fun i => bigsum n (fun j =>
      (mnth (triangular_solve L (np_eye n) lower) i j * v j)
      * (mnth (triangular_solve L (np_eye n) lower) i j * v j))).
Proof.
  intros HL. rewrite diag_as_scaled_eye.
  rewrite (@sumsq_mat n n)
    by (apply solve_lower_is_mat; [apply HL | apply mk_mat_is_mat]).
  apply bigsum_ext. intros i Hi. apply bigsum_ext. intros j Hj.
  now rewrite (solve_lower_scale_cols v HL (eye_is_mat n) Hi Hj).
Qed.


(* ================================================================= *)
(** ** Traces of the evaluations *)

Lemma for_loop_trace A (body : nat -> A -> Eval A) ds : forall acc s,
  (forall d a s', snd (body d a s') = s') ->
  snd (for_loop ds acc body s) = s.
Proof.
  induction ds as [|d ds IH]; intros acc s Hb; [reflexivity|].
  simpl. unfold bind. specialize (Hb d acc s) as Hd.
  destruct (body d acc s) as [[a|] s1]; simpl in Hd; subst s1.
  - now apply IH.
  - reflexivity.
Qed.

Lemma lift_option_trace A B (o : option A) (k : A -> B) s :
  snd ((x <- lift_option o ;; ret (k x)) s) = s.
Proof. destruct o; reflexivity. Qed.

Lemma prior_KL_trace (m : SVGP) log :
  snd (build_prior_KL m log)
  = if whiten m then log else log ++ [jittered_gram m].
Proof.
  unfold build_prior_KL, jittered_gram. destruct (whiten m).
  - destruct (q_diag m); [reflexivity|].
    apply for_loop_trace. intros d a s'. apply lift_option_trace.
  - unfold bind at 1, tf_cholesky.
    destruct (cholesky _) as [L|]; [|reflexivity].
    destruct (q_diag m); [reflexivity|].
    apply for_loop_trace. intros d a s'. apply lift_option_trace.
Qed.

Lemma cholesky_1x1 a : 0 < a -> cholesky [[a]] = Some [[sqrt a]].
Proof.
  intros Ha. unfold cholesky. simpl.
  unfold vdot. simpl.
  destruct (Rlt_dec 0 (a - 0)) as [H|H]; [|exfalso; lra].
  replace (a - 0) with a by lra. reflexivity.
Qed.

(* ================================================================= *)
(** ** The constructor and the optimizer steps *)

Lemma init_fields `{Transforms} X0 Y0 k lik Z0 mf nl qd wh m :
  __init__ X0 Y0 k lik Z0 mf nl qd wh = Some m ->
  q_diag m = qd /\ whiten m = wh /\ value (Z m) = Z0 /\
  num_latent m = py_or nl (shape1 Y0) /\ num_inducing m = shape0 Z0 /\
  q_mu m = mkParam (np_zeros (shape0 Z0) (py_or nl (shape1 Y0))) Identity /\
  (if qd
   then Some (q_sqrt m)
        = Some (mkParam (Rank2 (np_ones (shape0 Z0) (py_or nl (shape1 Y0)))) positive)
   else option_map (fun t => mkParam (Rank3 t) Identity)
          (swapaxes02 (map (fun _ => np_eye (shape0 Z0))
                         (seq 0 (py_or nl (shape1 Y0)))))
        = Some (q_sqrt m)).
Proof.
  unfold __init__. intros Hm.
  destruct qd.
  - simpl in Hm. injection Hm as <-. repeat split.
  - simpl in Hm.
    destruct (swapaxes02 _) as [t|] eqn:Ht; [|discriminate].
    simpl in Hm. injection Hm as <-. repeat split.
Qed.

Lemma swapaxes02_eye_stack M L :
  (0 < L)%nat ->
  swapaxes02 (map (fun _ => np_eye M) (seq 0 L))
  = Some (tabulate M (fun i => tabulate M (fun j => tabulate L (fun d =>
            if Nat.eqb j i then 1 else 0)))).
Proof.
  intros HL. destruct L as [|L]; [lia|].
  assert (Hlen : length (map (fun _ : nat => np_eye M) (seq 0 (S L))) = S L)
    by now rewrite length_map, length_seq.
  remember (map (fun _ : nat => np_eye M) (seq 0 (S L))) as t eqn:Et.
  destruct t as [|m0 t']; [discriminate|].
  assert (Hm0 : m0 = np_eye M).
  { simpl in Et. now injection Et. }
  unfold swapaxes02. f_equal. subst m0.
  rewrite (is_mat_sq_shape1 (eye_is_mat M)). unfold np_eye at 1. rewrite shape0_mk_mat.
  unfold shape0. rewrite Hlen.
  apply tabulate_ext. intros i Hi. apply tabulate_ext. intros j Hj.
  apply tabulate_ext. intros d Hd.
  rewrite Et. fold (tabulate (S L) (fun _ : nat => np_eye M)).
  rewrite tabulate_nth by assumption.
  fold (mnth (np_eye M) j i). now apply eye_mnth.
Qed.

Lemma slice3_eye_stack M L d :
  (d < L)%nat ->
  slice3 (tabulate M (fun i => tabulate M (fun j => tabulate L (fun _ =>
            if Nat.eqb j i then 1 else 0)))) d
  = Some (np_eye M).
Proof.
  intros Hd. unfold slice3. rewrite forallb_tabulate.
  - f_equal. unfold np_eye, mk_mat. rewrite map_tabulate. apply tabulate_ext. intros i _.
    rewrite map_tabulate. apply tabulate_ext. intros j _.
    rewrite tabulate_nth by assumption. now rewrite Nat.eqb_sym.
  - intros i _. apply forallb_tabulate. intros j _. rewrite tabulate_length.
    now apply Nat.ltb_lt.
Qed.

Lemma Forall_repeat A (P : A -> Prop) x n : P x -> Forall P (repeat x n).
Proof. intros Hx. induction n; simpl; constructor; assumption. Qed.

Lemma Forall_map_all A B (P : B -> Prop) (f : A -> B) l :
  (forall a, P (f a)) -> Forall P (map f l).
Proof. intros Hf. induction l; simpl; constructor; auto. Qed.

Lemma positive_values `{Transforms} (free : ndarray) :
  nd_Forall (fun x => 0 < x) (tmap (forward positive) free).
Proof.
  destruct free as [a|t]; simpl.
  - apply Forall_map_all. intros row. apply Forall_map_all. intros x.
    apply positive_gt_0.
  - apply Forall_map_all. intros a. apply Forall_map_all. intros row.
    apply Forall_map_all. intros x. apply positive_gt_0.
Qed.

Lemma identity_values (free : ndarray) : tmap (forward Identity) free = free.
Proof.
  destruct free as [a|t]; simpl forward; cbn [tmap ndarray_Tensor]; f_equal.
  - apply tmap_id_mat.
  - apply tmap_id_tensor3.
Qed.

Lemma lifetime_q_sqrt_transform m0 m :
  lifetime m0 m ->
  q_diag m = q_diag m0 /\ transform (q_sqrt m) = transform (q_sqrt m0).
Proof.
  induction 1 as [|m fZ fmu fs Hlife [IHd IHt]]; [split; reflexivity|].
  split; assumption.
Qed.

Lemma logabs_vec n (v : nat -> R) :
  reduce_sum (tmap (fun x => ln (Rabs x)) (tabulate n v))
  = bigsum n (fun i => ln (Rabs (v i))).
Proof.
  simpl tmap. rewrite map_tabulate. now rewrite (reduce_sum_tabulate (A:=R)).
Qed.

(* ================================================================= *)
(** * The claims of the specification *)

(** C2.  With [whiten = false] and [q_diag = true], [build_prior_KL] returns
    [0.5 sum(alpha^2) + L_latent sum(log |diag L|) - 0.5 M L_latent
     - 0.5 sum(log q_sqrt^2) + 0.5 sum_(m,d) diag(K^-1)_m q_sqrt^2_(m,d)]
    where [L] is the Cholesky factor of [K(Z) + 1e-6 I], [alpha] the forward
    solve of [q_mu] against [L], and [K^-1] the result of the solves with [L]
    and [L^T]; the evaluation fails when the factorization does.  The factor
    is lower triangular with a positive diagonal, and for a symmetric [K(Z)]
    the matrix [K^-1] is an inverse of the jittered Gram matrix. *)
Theorem prior_KL_natural_diag (m : SVGP) (s : mat) :
  whiten m = false ->
  q_diag m = true ->
  value (q_sqrt m) = Rank2 s ->
  is_mat (num_inducing m) (num_latent m) s ->
  length (value (Z m)) = num_inducing m ->
  (forall log,
     build_prior_KL m log
     = (match cholesky (jittered_gram m) with
        | Some L =>
            let alpha := triangular_solve L (value (q_mu m)) lower in
            let K_inv := triangular_solve (tf_transpose L)
                           (triangular_solve L (np_eye (num_inducing m)) lower) upper in
            Some (0.5 * reduce_sum (tf_square alpha)
                  + INR (num_latent m)
                    * reduce_sum (tmap (fun x => ln (Rabs x)) (get_diag L))
                  - 0.5 * INR (num_inducing m) * INR (num_latent m)
                  - 0.5 * reduce_sum (tf_log (tf_square s))
                  + 0.5 * bigsum (num_inducing m) (fun i =>
                            bigsum (num_latent m) (fun d =>
                              mnth K_inv i i * (mnth s i d * mnth s i d))))
        | None => None
        end, log ++ [jittered_gram m]))
  /\ (forall L,
        cholesky (jittered_gram m) = Some L ->
        lower_tri (num_inducing m) L /\
        (forall i, (i < num_inducing m)%nat -> 0 < mnth L i i) /\
        (symmetric (num_inducing m) (K (kern m) (value (Z m))) ->
         forall i k, (i < num_inducing m)%nat -> (k < num_inducing m)%nat ->
           bigsum (num_inducing m) (fun j =>
             mnth (jittered_gram m) i j
             * mnth (triangular_solve (tf_transpose L)
                       (triangular_solve L (np_eye (num_inducing m)) lower) upper) j k)
           = if Nat.eqb i k then 1 else 0)).
Proof.
  intros Hw Hd Hq Hs HZ.
  set (M := num_inducing m) in *. set (Ll := num_latent m) in *.
  split.
  - intros log. unfold build_prior_KL. rewrite Hw, Hd, Hq.
    fold (jittered_gram m). fold M. fold Ll.
    unfold bind, tf_cholesky.
    destruct (cholesky (jittered_gram m)) as [L|] eqn:HL; [|reflexivity].
    destruct (@gram_factor_shape m L HZ HL) as (HLm & HLt & HLp).
    fold M in HLm, HLt, HLp.
    unfold ret. f_equal. f_equal. cbv zeta.
    cbn [reduce_sum tf_log tf_square tmap ndarray_Tensor nd_mul].
    fold (tf_square s). fold (tf_log (tf_square s)).
    rewrite (get_diag_sq (Kinv_is_mat HLm)).
    rewrite (tf_square_eta Hs), tf_mul_expand_dims, reduce_sum_mk_mat.
    rewrite (get_diag_sq HLm), logsq_vec, logabs_vec.
    rewrite (@bigsum_ext M (fun i => ln (mnth L i i * mnth L i i))
               (fun i => 2 * ln (Rabs (mnth L i i))))
      by (intros; apply ln_square).
    rewrite bigsum_scal. lra.
  - intros L HL.
    destruct (@gram_factor_shape m L HZ HL) as (HLm & HLt & HLp).
    fold M in HLm, HLt, HLp.
    repeat split; [assumption | assumption |].
    intros Hsym i k Hi Hk.
    pose proof (K_shape (kern m) (value (Z m))) as HK. rewrite HZ in HK. fold M in HK.
    assert (Hlen : length (jittered_gram m) = M).
    { unfold jittered_gram. fold M. rewrite (jitter_gram HK). apply shape0_mk_mat. }
    apply (@gram_inverse M (jittered_gram m) L i k Hlen HL); try assumption.
    intros a b Ha Hb. unfold jittered_gram. fold M. rewrite (jitter_gram HK).
    rewrite !mnth_mk_mat by assumption. rewrite (Hsym a b Ha Hb), (Nat.eqb_sym a b).
    reflexivity.
Qed.

Lemma prior_KL_natural_diag_witness :
  whiten toy_natural = false /\ q_diag toy_natural = true /\
  is_mat 1 1 [[1]] /\
  snd (build_prior_KL toy_natural []) = [jittered_gram toy_natural].
Proof.
  assert (Hs : is_mat 1 1 [[1]]) by (split; [reflexivity | repeat constructor]).
  repeat split; try reflexivity; try (repeat constructor).
  rewrite (proj1 (@prior_KL_natural_diag toy_natural [[1]]
                    eq_refl eq_refl eq_refl Hs eq_refl) []).
  reflexivity.
Defined.

(** C3.  [build_likelihood] returns the sum of the variational expectations
    at [(fmean + mean_function(X), fvar, Y)] minus the prior KL, where
    [(fmean, fvar)] is the whitened predictor at [X] when [whiten] is set and
    the natural one otherwise; a failure of the prior KL or of the predictor
    is a failure of the evaluation. *)
Theorem build_likelihood_value `{Conditionals} (m : SVGP) (log : trace) :
  build_likelihood m log
  = match build_prior_KL m log with
    | (Some KL, log1) =>
        match (if whiten m
               then gaussian_gp_predict_whitened (X m) (value (Z m)) (kern m)
                      (value (q_mu m)) (value (q_sqrt m)) (num_latent m)
               else gaussian_gp_predict (X m) (value (Z m)) (kern m)
                      (value (q_mu m)) (value (q_sqrt m)) (num_latent m)) log1 with
        | (Some (fmean, fvar), log2) =>
            (Some (reduce_sum (variational_expectations (likelihood m)
                                 (tf_add fmean (mean_function m (X m))) fvar (Y m))
                   - KL), log2)
        | (None, log2) => (None, log2)
        end
    | (None, log1) => (None, log1)
    end.
Proof.
  unfold build_likelihood, bind.
  destruct (build_prior_KL m log) as [[KL|] log1]; [|reflexivity].
  destruct (whiten m).
  - destruct (gaussian_gp_predict_whitened _ _ _ _ _ _ _) as [[[fmean fvar]|] log2];
      reflexivity.
  - destruct (gaussian_gp_predict _ _ _ _ _ _ _) as [[[fmean fvar]|] log2];
      reflexivity.
Qed.

(** C4.  With [q_diag = true] and [whiten = true], [q_mu] zero everywhere
    and [q_sqrt] one everywhere ([M x L]), the Mahalanobis term and the
    log-determinant term vanish, the trace term is [0.5 M L], and
    [build_prior_KL] evaluates to exactly [0]. *)
Theorem prior_KL_at_prior (m : SVGP) :
  whiten m = true ->
  q_diag m = true ->
  Forall (Forall (fun x => x = 0)) (value (q_mu m)) ->
  value (q_sqrt m) = Rank2 (np_ones (num_inducing m) (num_latent m)) ->
  reduce_sum (tf_square (value (q_mu m))) = 0 /\
  reduce_sum (tf_log (tf_square (value (q_sqrt m)))) = 0 /\
  0.5 * reduce_sum (tf_square (value (q_sqrt m)))
  = 0.5 * INR (num_inducing m) * INR (num_latent m) /\
  forall log, build_prior_KL m log = (Some 0, log).
Proof.
  intros Hw Hd Hmu Hq.
  assert (H1 : reduce_sum (tf_square (value (q_mu m))) = 0) by now apply sumsq_zero.
  assert (H2 : reduce_sum (tf_log (tf_square (value (q_sqrt m)))) = 0).
  { rewrite Hq. cbn [reduce_sum tf_log tf_square tmap ndarray_Tensor].
    rewrite np_ones_mk_mat.
    change (reduce_sum (tmap ln (tmap (fun v => v * v)
              (mk_mat (num_inducing m) (num_latent m) (fun _ _ => 1)))) = 0).
    rewrite !tmap_mk_mat, reduce_sum_mk_mat.
    apply bigsum_zero. intros i _. apply bigsum_zero. intros j _.
    rewrite Rmult_1_r. apply ln_1. }
  assert (H3 : reduce_sum (tf_square (value (q_sqrt m)))
               = INR (num_inducing m) * INR (num_latent m)).
  { rewrite Hq. cbn [reduce_sum tf_square tmap ndarray_Tensor].
    rewrite np_ones_mk_mat.
    change (reduce_sum (tmap (fun v => v * v)
              (mk_mat (num_inducing m) (num_latent m) (fun _ _ => 1)))
            = INR (num_inducing m) * INR (num_latent m)).
    rewrite tmap_mk_mat, reduce_sum_mk_mat.
    rewrite (@bigsum_ext _ _ (fun _ => INR (num_latent m))).
    - rewrite bigsum_const. reflexivity.
    - intros i _. rewrite bigsum_const. lra. }
  repeat split; [assumption | assumption | rewrite H3; lra |].
  intros log. unfold build_prior_KL. rewrite Hw, Hd, H1, H2, H3.
  unfold ret. f_equal. f_equal. lra.
Qed.

Lemma prior_KL_at_prior_witness :
  whiten toy_prior = true /\ q_diag toy_prior = true /\
  build_prior_KL toy_prior [] = (Some 0, []).
Proof.
  repeat split.
  apply (@prior_KL_at_prior toy_prior); try reflexivity.
  repeat constructor.
Defined.

(** C5.  For a strictly positive [M x L] matrix [s] and either setting of
    [whiten], the KL of the full-covariance branch, each slice of [q_sqrt]
    being the diagonal matrix of a column of [s], equals the KL of the
    diagonal branch with [q_sqrt = s], for the same [Z], kernel and [q_mu]:
    the two evaluations give the same result and the same trace. *)
Theorem prior_KL_full_agrees_with_diag (m : SVGP) (s : mat) :
  is_mat (num_inducing m) (num_latent m) s ->
  (forall i j, (i < num_inducing m)%nat -> (j < num_latent m)%nat -> 0 < mnth s i j) ->
  length (value (Z m)) = num_inducing m ->
  forall log,
    build_prior_KL
      (with_q_sqrt m false (Rank3 (diag_stack (num_inducing m) (num_latent m) s))) log
    = build_prior_KL (with_q_sqrt m true (Rank2 s)) log.
Proof.
  intros Hs _ HZ log. unfold build_prior_KL. cbn [whiten q_diag with_q_sqrt value
    q_sqrt q_mu num_latent num_inducing kern Z].
  set (M := num_inducing m) in *. set (Ll := num_latent m) in *.
  destruct (whiten m).
  - (* whitened *)
    unfold for_range.
    rewrite (@for_loop_pure R (fun d a =>
      a + (- 0.5 * bigsum M (fun i => ln (mnth s i d * mnth s i d))
           + 0.5 * bigsum M (fun i => mnth s i d * mnth s i d)))).
    + unfold ret. f_equal. f_equal.
      rewrite fold_left_sum.
      cbn [reduce_sum tf_log tf_square tmap ndarray_Tensor].
      change (reduce_sum (tf_log (tf_square s))) with
        (reduce_sum (tmap ln (tmap (fun v => v * v) s))).
      fold (tf_square s). fold (tf_log (tf_square s)).
      rewrite (logsq_mat Hs), (sumsq_mat Hs).
      rewrite bigsum_plus, !bigsum_scal.
      rewrite (bigsum_swap M Ll), (bigsum_swap M Ll (fun i j => mnth s i j * mnth s i j)).
      lra.
    + intros d a s' Hd. apply in_seq in Hd.
      cbn [nd_slice3]. rewrite slice3_diag_stack by lia.
      unfold lift_option, bind, ret.
      rewrite triangle_diag, get_diag_diag, logsq_vec, sumsq_diag.
      f_equal. f_equal. lra.
  - (* natural *)
    unfold bind at 1 3. unfold tf_cholesky.
    destruct (cholesky _) as [L|] eqn:HL; [|reflexivity].
    destruct (gram_factor_shape m HZ HL) as (HLm & HLt & HLp).
    fold M in HLm, HLt, HLp.
    pose proof (@pos_diag_nonzero M L HLp) as HLd.
    set (Rm := triangular_solve L (np_eye M) lower).
    assert (HRm : is_mat M M Rm) by (apply Linv_is_mat; assumption).
    unfold for_range.
    rewrite (@for_loop_pure R (fun d a =>
      a + (- 0.5 * bigsum M (fun i => ln (mnth s i d * mnth s i d))
           + 0.5 * bigsum M (fun i => bigsum M (fun j =>
               (mnth Rm i j * mnth s j d) * (mnth Rm i j * mnth s j d)))))).
    + unfold ret. f_equal. f_equal.
      rewrite fold_left_sum.
      cbn [reduce_sum tf_log tf_square tmap ndarray_Tensor nd_mul].
      fold (tf_square s). fold (tf_log (tf_square s)).
      rewrite (logsq_mat Hs).
      pose proof (get_diag_sq (Kinv_is_mat HLm)) as Hgd. fold Rm in Hgd.
      rewrite Hgd. clear Hgd.
      rewrite (tf_square_eta Hs), tf_mul_expand_dims, reduce_sum_mk_mat.
      rewrite bigsum_plus, !bigsum_scal.
      rewrite (bigsum_swap M Ll).
      assert (Htr : bigsum Ll (fun d => bigsum M (fun i => bigsum M (fun j =>
                 (mnth Rm i j * mnth s j d) * (mnth Rm i j * mnth s j d))))
               = bigsum M (fun i => bigsum Ll (fun j =>
                   mnth (triangular_solve (tf_transpose L) Rm upper) i i
                   * (mnth s i j * mnth s i j)))).
      { rewrite (bigsum_swap M Ll). apply bigsum_ext. intros d Hd.
        rewrite bigsum_swap. apply bigsum_ext. intros j Hj.
        unfold Rm. rewrite (Kinv_gram HLm HLt HLd Hj Hj).
        fold Rm. rewrite <- bigsum_scal_r. apply bigsum_ext. intros i Hi. ring. }
      fold Rm. rewrite Htr. lra.
    + intros d a s' Hd. apply in_seq in Hd.
      cbn [nd_slice3]. rewrite slice3_diag_stack by lia.
      unfold lift_option, bind, ret.
      rewrite triangle_diag, get_diag_diag, logsq_vec.
      rewrite (sumsq_solve_diag (fun j => mnth s j d) HLm).
      f_equal. f_equal. fold Rm. lra.
Qed.

Lemma prior_KL_full_agrees_with_diag_witness :
  is_mat 1 1 [[2]] /\
  build_prior_KL (with_q_sqrt toy_natural false (Rank3 (diag_stack 1 1 [[2]]))) []
  = build_prior_KL (with_q_sqrt toy_natural true (Rank2 [[2]])) [].
Proof.
  assert (Hs : is_mat 1 1 [[2]]) by (split; [reflexivity | repeat constructor]).
  split; [exact Hs|].
  apply (@prior_KL_full_agrees_with_diag toy_natural [[2]] Hs).
  - intros [|i] [|j] Hi Hj; simpl in Hi, Hj; try lia. unfold mnth. simpl. lra.
  - reflexivity.
Defined.

(** C6.  Through the whole lifetime of a constructed model (any sequence of
    optimizer steps): with [q_diag = true] the parameter [q_sqrt] carries the
    positivity transform and each of its entries is strictly positive; with
    [q_diag = false] it carries the identity transform, so that every free
    array is taken as its value unchanged. *)
Theorem q_sqrt_constraint `{Transforms} X0 Y0 k lik Z0 mf nl qd wh m0 m :
  __init__ X0 Y0 k lik Z0 mf nl qd wh = Some m0 ->
  lifetime m0 m ->
  q_diag m = qd /\
  (qd = true ->
   transform (q_sqrt m) = positive /\
   nd_Forall (fun x => 0 < x) (value (q_sqrt m))) /\
  (qd = false ->
   transform (q_sqrt m) = Identity /\
   forall (free_Z free_q_mu : mat) (free : ndarray),
     value (q_sqrt (set_parameters m free_Z free_q_mu free)) = free).
Proof.
  intros Hm Hlife.
  destruct (init_fields _ _ _ _ _ _ _ _ _ Hm) as (Hd & _ & _ & _ & _ & _ & Hq).
  destruct (lifetime_q_sqrt_transform Hlife) as (Hd' & Ht).
  split; [congruence|]. split.
  - intros ->. injection Hq as Hq. rewrite Hq in Ht. simpl in Ht.
    split; [assumption|].
    destruct Hlife as [|m fZ fmu fs Hlife].
    + rewrite Hq. simpl. apply Forall_repeat, Forall_repeat. lra.
    + cbn [q_sqrt set_parameters set_state value].
      destruct (lifetime_q_sqrt_transform Hlife) as (_ & Ht').
      rewrite Ht', Hq. simpl transform. apply positive_values.
  - intros ->.
    destruct (swapaxes02 _) as [t|]; [|discriminate].
    simpl in Hq. injection Hq as Hq. rewrite <- Hq in Ht. simpl in Ht.
    split; [assumption|].
    intros fZ fmu free. cbn [q_sqrt set_parameters set_state value].
    rewrite Ht. apply identity_values.
Qed.

Lemma q_sqrt_constraint_witness :
  exists m0,
    @__init__ exp_Transforms [[0]] [[1]] white_kernel gaussian_likelihood [[0]]
      zero_mean None true true = Some m0 /\
    nd_Forall (fun x => 0 < x)
      (value (q_sqrt (set_parameters m0 [[0]] [[0]] (Rank2 [[-3]])))).
Proof.
  eexists. split; [reflexivity|].
  refine (proj2 (proj1 (proj2 (@q_sqrt_constraint exp_Transforms [[0]] [[1]] white_kernel
            gaussian_likelihood [[0]] zero_mean None true true _ _ eq_refl
            (lifetime_step [[0]] [[0]] (Rank2 [[-3]]) (lifetime_start _)))) eq_refl)).
Defined.

(** C7.  [build_predict(Xnew)] returns the conditional mean plus
    [mean_function(Xnew)] and the conditional variance, the conditional being
    the whitened one when [whiten] is set and the natural one otherwise; the
    result is the same for a model that differs in the targets [Y] and the
    likelihood only. *)
Theorem build_predict_value `{Conditionals} (m : SVGP) (Xnew : mat) (log : trace) :
  build_predict m Xnew log
  = match (if whiten m
           then gaussian_gp_predict_whitened Xnew (value (Z m)) (kern m)
                  (value (q_mu m)) (value (q_sqrt m)) (num_latent m)
           else gaussian_gp_predict Xnew (value (Z m)) (kern m)
                  (value (q_mu m)) (value (q_sqrt m)) (num_latent m)) log with
    | (Some (mu, var), log1) =>
        (Some (tf_add mu (mean_function m Xnew), var), log1)
    | (None, log1) => (None, log1)
    end
  /\ forall (Y' : mat) (likelihood' : Likelihood),
       build_predict (with_data m Y' likelihood') Xnew log = build_predict m Xnew log.
Proof.
  split; [|reflexivity].
  unfold build_predict, bind.
  destruct (whiten m).
  - destruct (gaussian_gp_predict_whitened _ _ _ _ _ _ _) as [[[mu var]|] log1];
      reflexivity.
  - destruct (gaussian_gp_predict _ _ _ _ _ _ _) as [[[mu var]|] log1];
      reflexivity.
Qed.

(** C8.  With [whiten = false], the one matrix that [build_prior_KL] hands
    to the Cholesky factorization is [K(Z) + 1e-6 I]: entry [(i, j)] is
    [K(Z)_ij], plus [1e-6] on the diagonal. *)
Theorem prior_KL_factorizes_jittered_gram (m : SVGP) (log : trace) :
  whiten m = false ->
  length (value (Z m)) = num_inducing m ->
  snd (build_prior_KL m log)
  = log ++ [mk_mat (num_inducing m) (num_inducing m)
              (fun i j => mnth (K (kern m) (value (Z m))) i j
                          + (if Nat.eqb i j then 1e-6 else 0))].
Proof.
  intros Hw HZ. rewrite prior_KL_trace, Hw. unfold jittered_gram.
  pose proof (K_shape (kern m) (value (Z m))) as HK. rewrite HZ in HK.
  now rewrite (jitter_gram HK).
Qed.

Lemma prior_KL_factorizes_jittered_gram_witness :
  snd (build_prior_KL toy_natural [])
  = [] ++ [mk_mat 1 1 (fun i j => mnth (K white_kernel [[0]]) i j
                                 + (if Nat.eqb i j then 1e-6 else 0))].
Proof.
  apply (@prior_KL_factorizes_jittered_gram toy_natural []);
    reflexivity.
Defined.

(** C9.  After a successful construction, [q_mu] is the [M x L] matrix of
    zeros; [q_sqrt] is the [M x L] matrix of ones when [q_diag] is set, and
    otherwise the [M x M x L] array each of whose [L] slices is the [M x M]
    identity; [M] is the number of rows of [Z] and [L] the number of latent
    functions. *)
Theorem init_parameters `{Transforms} X0 Y0 k lik Z0 mf nl qd wh m :
  __init__ X0 Y0 k lik Z0 mf nl qd wh = Some m ->
  num_inducing m = shape0 Z0 /\
  value (q_mu m) = np_zeros (shape0 Z0) (num_latent m) /\
  (qd = true -> value (q_sqrt m) = Rank2 (np_ones (shape0 Z0) (num_latent m))) /\
  (qd = false ->
   exists t,
     value (q_sqrt m) = Rank3 t /\
     length t = shape0 Z0 /\
     Forall (is_mat (shape0 Z0) (num_latent m)) t /\
     forall d, (d < num_latent m)%nat -> slice3 t d = Some (np_eye (shape0 Z0))).
Proof.
  intros Hm. destruct (init_fields _ _ _ _ _ _ _ _ _ Hm)
    as (_ & _ & _ & HL & HM & Hmu & Hq).
  rewrite HL. repeat split.
  - assumption.
  - now rewrite Hmu.
  - intros ->. now injection Hq as ->.
  - intros ->.
    destruct (Nat.eq_dec (py_or nl (shape1 Y0)) 0) as [E|E].
    + rewrite E in Hq. discriminate.
    + rewrite swapaxes02_eye_stack in Hq by lia. simpl in Hq. injection Hq as <-.
      eexists. split; [reflexivity|]. split; [apply tabulate_length|]. split.
      * apply Forall_forall. intros A HA. unfold tabulate in HA at 1.
        apply in_map_iff in HA. destruct HA as (i & <- & _).
        apply (mk_mat_is_mat (shape0 Z0) (py_or nl (shape1 Y0))
                 (fun j _ => if Nat.eqb j i then 1 else 0)).
      * intros d Hd. now apply slice3_eye_stack.
Qed.

Lemma init_parameters_witness :
  exists m,
    @__init__ exp_Transforms [[0]] [[1]] white_kernel gaussian_likelihood [[0]]
      zero_mean None false true = Some m /\
    value (q_mu m) = np_zeros 1 (num_latent m).
Proof.
  eexists. split; [reflexivity|].
  apply (@init_parameters exp_Transforms [[0]] [[1]] white_kernel gaussian_likelihood
           [[0]] zero_mean None false true).
  reflexivity.
Defined.



(* ================================================================= *)
(** * Further lemmas *)

(** ** Bounds *)

Lemma ln_le_pred x : 0 < x -> ln x <= x - 1.
Proof.
  intros Hx. pose proof (exp_ineq1_le (ln x)) as H.
  rewrite exp_ln in H by assumption. lra.
Qed.

(** The entry term of the KL divergence of two univariate Gaussians. *)
Lemma kl_entry_nonneg x : x <> 0 -> 0 <= 0.5 * (x * x) - 0.5 * ln (x * x) - 0.5.
Proof.
  intros Hx. assert (Hp : 0 < x * x) by nra.
  pose proof (ln_le_pred Hp). lra.
Qed.

Lemma bigsum_nonneg n f : (forall i, (i < n)%nat -> 0 <= f i) -> 0 <= bigsum n f.
Proof.
  induction n as [|n IH]; intros Hf; simpl; [lra|].
  specialize (IH (fun i Hi => Hf i (Nat.lt_lt_succ_r _ _ Hi))).
  specialize (Hf n (Nat.lt_succ_diag_r n)). lra.
Qed.

Lemma bigsum_le n f g :
  (forall i, (i < n)%nat -> f i <= g i) -> bigsum n f <= bigsum n g.
Proof.
  induction n as [|n IH]; intros Hf; simpl; [lra|].
  specialize (IH (fun i Hi => Hf i (Nat.lt_lt_succ_r _ _ Hi))).
  specialize (Hf n (Nat.lt_succ_diag_r n)). lra.
Qed.

Lemma bigsum_ge_term n f i :
  (forall k, (k < n)%nat -> 0 <= f k) -> (i < n)%nat -> f i <= bigsum n f.
Proof.
  intros Hf Hi. rewrite (bigsum_split f Hi).
  assert (0 <= bigsum i f) by (apply bigsum_nonneg; intros; apply Hf; lia).
  assert (0 <= bigsum (n - S i) (fun k => f (S i + k)%nat))
    by (apply bigsum_nonneg; intros; apply Hf; lia).
  lra.
Qed.

Lemma sumsq_nonneg (A : mat) : 0 <= reduce_sum (tf_square A).
Proof.
  unfold tf_square. induction A as [|row A IH]; simpl; [lra|].
  assert (0 <= fold_right (fun a s => a + s) 0 (map (fun v => v * v) row)).
  { induction row as [|x row IHr]; simpl; [lra|]. nra. }
  simpl in IH. lra.
Qed.

(** ** The whitened branches in closed form *)

Lemma whitened_diag_eval (m : SVGP) (mu s : mat) :
  whiten m = true -> q_diag m = true ->
  value (q_mu m) = mu -> value (q_sqrt m) = Rank2 s ->
  is_mat (num_inducing m) (num_latent m) mu ->
  is_mat (num_inducing m) (num_latent m) s ->
  forall log,
    build_prior_KL m log
    = (Some (0.5 * bigsum (num_inducing m) (fun i => bigsum (num_latent m) (fun d =>
                     mnth mu i d * mnth mu i d))
             - 0.5 * INR (num_inducing m) * INR (num_latent m)
             + (- 0.5 * bigsum (num_inducing m) (fun i => bigsum (num_latent m) (fun d =>
                          ln (mnth s i d * mnth s i d)))
                + 0.5 * bigsum (num_inducing m) (fun i => bigsum (num_latent m) (fun d =>
                          mnth s i d * mnth s i d)))), log).
Proof.
  intros Hw Hd Hmu Hq Hm Hs log. unfold build_prior_KL. rewrite Hw, Hd, Hmu, Hq.
  unfold ret. f_equal. f_equal.
  cbn [reduce_sum tf_log tf_square tmap ndarray_Tensor].
  fold (tf_square s). fold (tf_log (tf_square s)).
  now rewrite (logsq_mat Hs), (sumsq_mat Hs), (sumsq_mat Hm).
Qed.

Lemma list_eta A (d0 : A) n (l : list A) :
  length l = n -> l = tabulate n (fun i => nth i l d0).
Proof.
  intros Hn. apply (nth_ext _ _ d0 d0).
  - now rewrite tabulate_length.
  - intros i Hi. rewrite tabulate_nth by lia. reflexivity.
Qed.

Lemma is_tensor3_row M N L t i :
  is_tensor3 M N L t -> (i < M)%nat -> is_mat N L (nth i t []).
Proof.
  intros [Hl Hf] Hi. rewrite Forall_forall in Hf. apply Hf, nth_In. lia.
Qed.

Lemma slice3_entries M N L t d :
  is_tensor3 M N L t -> (d < L)%nat ->
  slice3 t d = Some (mk_mat M N (fun i j => t3nth t i j d)).
Proof.
  intros Ht Hd. unfold slice3.
  replace (forallb _ t) with true.
  - f_equal. destruct Ht as [Hl Hf] eqn:E. clear E.
    rewrite (@list_eta _ [] M t Hl) at 1. unfold mk_mat. rewrite map_tabulate.
    apply tabulate_ext. intros i Hi.
    destruct (is_tensor3_row Ht Hi) as [Hr _].
    rewrite (@list_eta _ [] N (nth i t []) Hr) at 1. rewrite map_tabulate. reflexivity.
  - symmetry. apply forallb_forall. intros A HA.
    destruct Ht as [_ Hf]. rewrite Forall_forall in Hf. destruct (Hf A HA) as [_ Hc].
    apply forallb_forall. intros v Hv. rewrite Forall_forall in Hc.
    rewrite (Hc v Hv). now apply Nat.ltb_lt.
Qed.

Lemma bigsum_mask n i f :
  (i < n)%nat ->
  bigsum n (fun j => if Nat.leb j i then f j else 0) = bigsum (S i) f.
Proof.
  intros Hi. replace n with (S i + (n - S i))%nat at 1 by lia.
  rewrite bigsum_app.
  rewrite (@bigsum_ext (S i) _ f).
  - rewrite (@bigsum_zero (n - S i)); [lra|].
    intros k _. destruct (Nat.leb_spec (S i + k) i); [lia | reflexivity].
  - intros j Hj. destruct (Nat.leb_spec j i); [reflexivity | lia].
Qed.

Lemma for_loop_ext A (body body' : nat -> A -> Eval A) ds : forall acc s,
  (forall d a s', In d ds -> body d a s' = body' d a s') ->
  for_loop ds acc body s = for_loop ds acc body' s.
Proof.
  induction ds as [|d ds IH]; intros acc s Hb; [reflexivity|].
  simpl. unfold bind. rewrite Hb by now left.
  destruct (body' d acc s) as [[a|] s1]; [|reflexivity].
  apply IH. intros. apply Hb. now right.
Qed.

Lemma for_loop_raise A (body : nat -> A -> Eval A) d ds acc s :
  body d acc s = (None, s) -> for_loop (d :: ds) acc body s = (None, s).
Proof. intros Hb. simpl. unfold bind. now rewrite Hb. Qed.

(** The lower triangle of a slice and what the loop body reads of it. *)
Lemma triangle_slice M f :
  triangle (mk_mat M M f) lower
  = mk_mat M M (fun i j => if Nat.leb j i then f i j else 0).
Proof. apply triangle_lower_sq. Qed.

Lemma sumsq_lower M f :
  reduce_sum (tf_square (mk_mat M M (fun i j => if Nat.leb j i then f i j else 0)))
  = bigsum M (fun i => bigsum (S i) (fun j => f i j * f i j)).
Proof.
  unfold tf_square. rewrite tmap_mk_mat, reduce_sum_mk_mat.
  apply bigsum_ext. intros i Hi. rewrite <- (bigsum_mask _ Hi).
  apply bigsum_ext. intros j _. destruct (Nat.leb j i); lra.
Qed.

Lemma get_diag_lower M f :
  get_diag (mk_mat M M (fun i j => if Nat.leb j i then f i j else 0))
  = tabulate M (fun i => f i i).
Proof.
  rewrite (get_diag_sq (mk_mat_is_mat M M _)). apply tabulate_ext. intros i Hi.
  rewrite mnth_mk_mat by assumption. now rewrite Nat.leb_refl.
Qed.

Lemma whitened_full_eval (m : SVGP) (t : tensor3) :
  whiten m = true -> q_diag m = false ->
  value (q_sqrt m) = Rank3 t ->
  is_tensor3 (num_inducing m) (num_inducing m) (num_latent m) t ->
  forall log,
    build_prior_KL m log
    = (Some (0.5 * reduce_sum (tf_square (value (q_mu m)))
             - 0.5 * INR (num_inducing m) * INR (num_latent m)
             + bigsum (num_latent m) (fun d =>
                 - 0.5 * bigsum (num_inducing m) (fun i =>
                           ln (t3nth t i i d * t3nth t i i d))
                 + 0.5 * bigsum (num_inducing m) (fun i =>
                           bigsum (S i) (fun j => t3nth t i j d * t3nth t i j d)))),
       log).
Proof.
  intros Hw Hd Hq Ht log. unfold build_prior_KL. rewrite Hw, Hd, Hq.
  set (M := num_inducing m) in *. set (Ll := num_latent m) in *.
  unfold for_range.
  rewrite (@for_loop_pure R (fun d a =>
    a + (- 0.5 * bigsum M (fun i => ln (t3nth t i i d * t3nth t i i d))
         + 0.5 * bigsum M (fun i => bigsum (S i) (fun j =>
                   t3nth t i j d * t3nth t i j d))))).
  - now rewrite fold_left_sum.
  - intros d a s' Hin. apply in_seq in Hin.
    cbn [nd_slice3]. rewrite (slice3_entries Ht) by lia.
    unfold lift_option, bind, ret.
    rewrite triangle_slice, get_diag_lower, logsq_vec, sumsq_lower.
    f_equal. f_equal. lra.
Qed.

(** ** More on forward substitution *)

(** A right-hand side that is zero above the diagonal has a solution that
    is zero above the diagonal. *)
Lemma solve_lower_upper_zero n w L B :
  is_mat n n L -> is_mat n w B ->
  (forall i j, (i < j)%nat -> (j < w)%nat -> mnth B i j = 0) ->
  forall i j, (i < n)%nat -> (i < j)%nat -> (j < w)%nat ->
    mnth (triangular_solve L B lower) i j = 0.
Proof.
  intros HL HB Hz i. induction i as [i IH] using lt_wf_ind. intros j Hi Hij Hj.
  rewrite (solve_lower_entry j HL HB Hi), Hz by assumption.
  rewrite bigsum_zero; [lra|].
  intros k Hk. rewrite IH by lia. lra.
Qed.

Lemma solve_lower_diag n L B i :
  is_mat n n L -> is_mat n n B -> lower_tri n B -> (i < n)%nat ->
  mnth (triangular_solve L B lower) i i = / mnth L i i * mnth B i i.
Proof.
  intros HL HB Hz Hi.
  rewrite (solve_lower_entry i HL HB Hi).
  rewrite bigsum_zero; [lra|].
  intros k Hk. rewrite (solve_lower_upper_zero HL HB) by (auto; lia). lra.
Qed.

(** Forward substitution is the product with the solution for the identity. *)
Lemma solve_lower_linear n w L B :
  is_mat n n L -> is_mat n w B ->
  forall i j, (i < n)%nat -> (j < w)%nat ->
    mnth (triangular_solve L B lower) i j
    = bigsum n (fun a => mnth (triangular_solve L (np_eye n) lower) i a * mnth B a j).
Proof.
  intros HL HB i. induction i as [i IH] using lt_wf_ind. intros j Hi Hj.
  rewrite (solve_lower_entry j HL HB Hi).
  rewrite (@bigsum_ext n _ (fun a =>
     / mnth L i i * ((if Nat.eqb i a then 1 else 0) * mnth B a j)
     - / mnth L i i * bigsum i (fun k =>
         mnth L i k * (mnth (triangular_solve L (np_eye n) lower) k a * mnth B a j)))).
  2:{ intros a Ha. rewrite (solve_lower_entry a HL (eye_is_mat n) Hi).
      rewrite eye_mnth by assumption.
      rewrite (@bigsum_ext i
        (fun k => mnth L i k * (mnth (triangular_solve L (np_eye n) lower) k a * mnth B a j))
        (fun k => mnth L i k * mnth (triangular_solve L (np_eye n) lower) k a * mnth B a j))
        by (intros; ring).
      rewrite bigsum_scal_r. ring. }
  rewrite bigsum_minus, !bigsum_scal.
  rewrite (@bigsum_ext n (fun a => (if Nat.eqb i a then 1 else 0) * mnth B a j)
             (fun a => if Nat.eqb a i then mnth B a j else 0)).
  2:{ intros a _. rewrite Nat.eqb_sym. destruct (Nat.eqb a i); lra. }
  rewrite (bigsum_delta (fun a => mnth B a j) Hi).
  rewrite bigsum_swap.
  rewrite (@bigsum_ext i
             (fun k => bigsum n (fun a =>
                mnth L i k * (mnth (triangular_solve L (np_eye n) lower) k a * mnth B a j)))
             (fun k => mnth L i k * mnth (triangular_solve L B lower) k j)).
  - ring.
  - intros k Hk. rewrite (IH k Hk j) by lia. rewrite <- bigsum_scal.
    apply bigsum_ext. intros a _. ring.
Qed.

(** [L^-1 (L B) = B]. *)
Lemma solve_lower_product n w L B C :
  is_mat n n L -> is_mat n w B -> is_mat n w C ->
  lower_tri n L -> diag_nonzero n L ->
  (forall i j, (i < n)%nat -> (j < w)%nat ->
     mnth C i j = bigsum n (fun k => mnth L i k * mnth B k j)) ->
  forall i j, (i < n)%nat -> (j < w)%nat ->
    mnth (triangular_solve L C lower) i j = mnth B i j.
Proof.
  intros HL HB HC Htri Hd Hprod i. induction i as [i IH] using lt_wf_ind.
  intros j Hi Hj.
  rewrite (solve_lower_entry j HL HC Hi), Hprod by assumption.
  rewrite (bigsum_split _ Hi). cbv beta.
  rewrite (@bigsum_zero (n - S i)).
  2:{ intros k Hk. rewrite Htri; [lra | lia | lia]. }
  rewrite (@bigsum_ext i (fun k => mnth L i k * mnth (triangular_solve L C lower) k j)
             (fun k => mnth L i k * mnth B k j)).
  2:{ intros k Hk. rewrite IH by lia. reflexivity. }
  specialize (Hd i Hi). field. assumption.
Qed.

Lemma ln_square_quot a b :
  a <> 0 -> b <> 0 ->
  ln ((/ b * a) * (/ b * a)) = ln (a * a) - ln (b * b).
Proof.
  intros Ha Hb.
  replace ((/ b * a) * (/ b * a)) with ((a * a) * / (b * b)) by (field; assumption).
  rewrite ln_mult, ln_Rinv; [lra | nra | nra |].
  apply Rinv_0_lt_compat. nra.
Qed.

Lemma ln_square_prod a b :
  a <> 0 -> b <> 0 -> ln ((a * b) * (a * b)) = ln (a * a) + ln (b * b).
Proof.
  intros Ha Hb.
  replace ((a * b) * (a * b)) with ((a * a) * (b * b)) by ring.
  apply ln_mult; nra.
Qed.

(** ** The natural branches, given the factor *)

Lemma eye_lower_tri n : lower_tri n (np_eye n).
Proof.
  intros i j Hij Hj. rewrite eye_mnth by lia.
  destruct (Nat.eqb_spec i j); [lia | reflexivity].
Qed.

(** The diagonal of the inverse Gram matrix dominates the squared inverse
    diagonal of the factor. *)
Lemma Kinv_diag_lower_bound n L i :
  is_mat n n L -> lower_tri n L -> diag_nonzero n L -> (i < n)%nat ->
  / mnth L i i * / mnth L i i
  <= mnth (triangular_solve (tf_transpose L)
             (triangular_solve L (np_eye n) lower) upper) i i.
Proof.
  intros HL Ht Hd Hi. rewrite (Kinv_gram HL Ht Hd Hi Hi).
  set (Rm := triangular_solve L (np_eye n) lower).
  assert (Hii : mnth Rm i i = / mnth L i i).
  { unfold Rm. rewrite (solve_lower_diag HL (eye_is_mat n) (@eye_lower_tri n) Hi).
    rewrite eye_mnth, Nat.eqb_refl by assumption. lra. }
  rewrite <- Hii.
  apply (@bigsum_ge_term n (fun k => mnth Rm k i * mnth Rm k i) i); [intros; nra | assumption].
Qed.

Lemma natural_diag_eval (m : SVGP) (s L : mat) log :
  whiten m = false -> q_diag m = true ->
  value (q_sqrt m) = Rank2 s ->
  is_mat (num_inducing m) (num_latent m) s ->
  length (value (Z m)) = num_inducing m ->
  cholesky (jittered_gram m) = Some L ->
  build_prior_KL m log
  = (Some (0.5 * reduce_sum (tf_square (triangular_solve L (value (q_mu m)) lower))
           + INR (num_latent m) * 0.5
             * bigsum (num_inducing m) (fun i => ln (mnth L i i * mnth L i i))
           - 0.5 * INR (num_inducing m) * INR (num_latent m)
           - 0.5 * bigsum (num_inducing m) (fun i => bigsum (num_latent m) (fun d =>
                     ln (mnth s i d * mnth s i d)))
           + 0.5 * bigsum (num_inducing m) (fun i => bigsum (num_latent m) (fun d =>
                     mnth (triangular_solve (tf_transpose L)
                             (triangular_solve L (np_eye (num_inducing m)) lower) upper) i i
                     * (mnth s i d * mnth s i d)))),
     log ++ [jittered_gram m]).
Proof.
  intros Hw Hd Hq Hs HZ HL. unfold build_prior_KL. rewrite Hw, Hd, Hq.
  fold (jittered_gram m). unfold bind, tf_cholesky. rewrite HL.
  destruct (@gram_factor_shape m L HZ HL) as (HLm & HLt & HLp).
  unfold ret. f_equal. f_equal.
  cbn [reduce_sum tf_log tf_square tmap ndarray_Tensor nd_mul].
  fold (tf_square s). fold (tf_log (tf_square s)).
  rewrite (get_diag_sq (Kinv_is_mat HLm)).
  rewrite (tf_square_eta Hs), tf_mul_expand_dims, reduce_sum_mk_mat.
  rewrite (get_diag_sq HLm), logsq_vec.
  rewrite <- (tf_square_eta Hs), (logsq_mat Hs). reflexivity.
Qed.

Lemma natural_full_eval (m : SVGP) (t : tensor3) (L : mat) log :
  whiten m = false -> q_diag m = false ->
  value (q_sqrt m) = Rank3 t ->
  is_tensor3 (num_inducing m) (num_inducing m) (num_latent m) t ->
  length (value (Z m)) = num_inducing m ->
  cholesky (jittered_gram m) = Some L ->
  build_prior_KL m log
  = (Some (0.5 * reduce_sum (tf_square (triangular_solve L (value (q_mu m)) lower))
           + INR (num_latent m) * 0.5
             * bigsum (num_inducing m) (fun i => ln (mnth L i i * mnth L i i))
           - 0.5 * INR (num_inducing m) * INR (num_latent m)
           + bigsum (num_latent m) (fun d =>
               - 0.5 * bigsum (num_inducing m) (fun i => ln (t3nth t i i d * t3nth t i i d))
               + 0.5 * reduce_sum (tf_square (triangular_solve L
                     (mk_mat (num_inducing m) (num_inducing m)
                        (fun i j => if Nat.leb j i then t3nth t i j d else 0)) lower)))),
     log ++ [jittered_gram m]).
Proof.
  intros Hw Hd Hq Ht HZ HL. unfold build_prior_KL. rewrite Hw, Hd, Hq.
  fold (jittered_gram m). unfold bind at 1, tf_cholesky. rewrite HL.
  destruct (@gram_factor_shape m L HZ HL) as (HLm & HLt & HLp).
  set (M := num_inducing m) in *. set (Ll := num_latent m) in *.
  unfold for_range.
  rewrite (@for_loop_pure R (fun d a =>
    a + (- 0.5 * bigsum M (fun i => ln (t3nth t i i d * t3nth t i i d))
         + 0.5 * reduce_sum (tf_square (triangular_solve L
               (mk_mat M M (fun i j => if Nat.leb j i then t3nth t i j d else 0)) lower))))).
  - rewrite fold_left_sum. rewrite (get_diag_sq HLm), logsq_vec. reflexivity.
  - intros d a s' Hin. apply in_seq in Hin.
    cbn [nd_slice3]. rewrite (slice3_entries Ht) by lia.
    unfold lift_option, bind, ret.
    rewrite triangle_slice, get_diag_lower, logsq_vec.
    f_equal. f_equal. lra.
Qed.

Lemma natural_entry_bound l k x :
  0 < l -> / l * / l <= k -> x <> 0 ->
  0 <= 0.5 * (k * (x * x)) - 0.5 * ln (x * x) + 0.5 * ln (l * l) - 0.5.
Proof.
  intros Hl Hk Hx.
  assert (Hq : / l * x <> 0).
  { apply Rmult_integral_contrapositive_currified; [|assumption].
    apply Rinv_neq_0_compat. lra. }
  pose proof (kl_entry_nonneg Hq) as He.
  rewrite ln_square_quot in He by lra.
  assert (/ l * x * (/ l * x) <= k * (x * x)).
  { replace (/ l * x * (/ l * x)) with ((/ l * / l) * (x * x)) by ring.
    apply Rmult_le_compat_r; [nra | assumption]. }
  lra.
Qed.

Lemma matmul_entries n w A B :
  is_mat n n A -> is_mat n w B ->
  tf_matmul A B = mk_mat n w (fun i j => bigsum n (fun k => mnth A i k * mnth B k j)).
Proof.
  intros HA HB. unfold tf_matmul.
  destruct HA as [HAr HAc] eqn:EA. clear EA.
  rewrite (@list_eta _ [] n A HAr) at 1. unfold mk_mat. rewrite map_tabulate.
  apply tabulate_ext. intros i Hi.
  assert (Hw : shape1 B = w) by (apply (is_mat_shape1 HB); lia).
  rewrite Hw.
  destruct HB as [HBr HBc] eqn:EB. clear EB.
  apply (nth_ext _ _ 0 0).
  - now rewrite dotrows_length, tabulate_length.
  - intros j Hj. rewrite dotrows_length in Hj by assumption.
    rewrite tabulate_nth by assumption. rewrite (dotrows_nth _ _ HBc).
    rewrite (is_mat_row (conj HAr HAc) Hi), HBr, Nat.min_id. reflexivity.
Qed.

Lemma stack3_is_tensor3 M L f : is_tensor3 M M L (stack3 M L f).
Proof.
  split; [apply tabulate_length|].
  apply Forall_forall. intros A HA. unfold stack3 in HA. unfold tabulate in HA at 1.
  apply in_map_iff in HA. destruct HA as (i & <- & _).
  apply (mk_mat_is_mat M L (fun j d => mnth (f d) i j)).
Qed.

Lemma stack3_entries M L f i j d :
  (i < M)%nat -> (j < M)%nat -> (d < L)%nat ->
  t3nth (stack3 M L f) i j d = mnth (f d) i j.
Proof.
  intros Hi Hj Hd. unfold t3nth, stack3. now rewrite !tabulate_nth.
Qed.

Lemma product_lower n L B i j :
  is_mat n n L -> lower_tri n L -> lower_tri n B -> (i < n)%nat -> (j < n)%nat ->
  bigsum n (fun k => mnth L i k * mnth B k j)
  = if Nat.leb j i then bigsum n (fun k => mnth L i k * mnth B k j) else 0.
Proof.
  intros HL HLt HBt Hi Hj. destruct (Nat.leb_spec j i); [reflexivity|].
  apply bigsum_zero. intros k Hk.
  destruct (Nat.le_gt_cases k i).
  - rewrite (HBt k j) by lia. lra.
  - rewrite (HLt i k) by lia. lra.
Qed.

Lemma product_diag n L B i :
  lower_tri n L -> lower_tri n B -> (i < n)%nat ->
  bigsum n (fun k => mnth L i k * mnth B k i) = mnth L i i * mnth B i i.
Proof.
  intros HLt HBt Hi.
  rewrite (@bigsum_ext n _ (fun k => if Nat.eqb k i then mnth L i k * mnth B k i else 0)).
  - now rewrite (bigsum_delta (fun k => mnth L i k * mnth B k i) Hi).
  - intros k Hk. destruct (Nat.eqb_spec k i); [reflexivity|].
    destruct (Nat.lt_ge_cases k i).
    + rewrite (HBt k i) by lia. lra.
    + rewrite (HLt i k) by lia. lra.
Qed.

Lemma lower_slice_tri M t d : lower_tri M (lower_slice M t d).
Proof.
  intros i j Hij Hj. unfold lower_slice. rewrite mnth_mk_mat by lia.
  destruct (Nat.leb_spec j i); [lia | reflexivity].
Qed.

(** ** The constructed model *)

Lemma np_zeros_is_mat r c : is_mat r c (np_zeros r c).
Proof. rewrite np_zeros_mk_mat. apply mk_mat_is_mat. Qed.

Lemma np_ones_is_mat r c : is_mat r c (np_ones r c).
Proof. rewrite np_ones_mk_mat. apply mk_mat_is_mat. Qed.

Lemma eye_stack_is_tensor3 M L :
  is_tensor3 M M L (tabulate M (fun i => tabulate M (fun j => tabulate L (fun _ : nat =>
     if Nat.eqb j i then 1 else 0)))).
Proof.
  split; [apply tabulate_length|].
  apply Forall_forall. intros A HA. unfold tabulate in HA at 1.
  apply in_map_iff in HA. destruct HA as (i & <- & _).
  apply (mk_mat_is_mat M L (fun j _ => if Nat.eqb j i then 1 else 0)).
Qed.

Lemma whitened_diag_at_prior (m : SVGP) log :
  whiten m = true -> q_diag m = true ->
  value (q_mu m) = np_zeros (num_inducing m) (num_latent m) ->
  value (q_sqrt m) = Rank2 (np_ones (num_inducing m) (num_latent m)) ->
  build_prior_KL m log = (Some 0, log).
Proof.
  intros Hw Hd Hmu Hq.
  rewrite (@whitened_diag_eval m _ _ Hw Hd Hmu Hq
             (np_zeros_is_mat _ _) (np_ones_is_mat _ _)).
  f_equal. f_equal.
  set (M := num_inducing m). set (Ll := num_latent m).
  rewrite (@bigsum_zero M (fun i => bigsum Ll (fun d =>
             mnth (np_zeros M Ll) i d * mnth (np_zeros M Ll) i d))).
  2:{ intros i Hi. apply bigsum_zero. intros d Hd'.
      rewrite np_zeros_mk_mat, mnth_mk_mat by assumption. lra. }
  rewrite (@bigsum_zero M (fun i => bigsum Ll (fun d =>
             ln (mnth (np_ones M Ll) i d * mnth (np_ones M Ll) i d)))).
  2:{ intros i Hi. apply bigsum_zero. intros d Hd'.
      rewrite np_ones_mk_mat, mnth_mk_mat by assumption.
      rewrite Rmult_1_r. apply ln_1. }
  rewrite (@bigsum_ext M (fun i => bigsum Ll (fun d =>
             mnth (np_ones M Ll) i d * mnth (np_ones M Ll) i d)) (fun _ => INR Ll)).
  2:{ intros i Hi. rewrite (@bigsum_ext Ll _ (fun _ => 1)).
      - rewrite bigsum_const. lra.
      - intros d Hd'. rewrite np_ones_mk_mat, mnth_mk_mat by assumption. lra. }
  rewrite bigsum_const. lra.
Qed.

Lemma whitened_full_at_prior (m : SVGP) log :
  whiten m = true -> q_diag m = false ->
  value (q_mu m) = np_zeros (num_inducing m) (num_latent m) ->
  value (q_sqrt m)
  = Rank3 (tabulate (num_inducing m) (fun i => tabulate (num_inducing m) (fun j =>
             tabulate (num_latent m) (fun _ : nat => if Nat.eqb j i then 1 else 0)))) ->
  build_prior_KL m log = (Some 0, log).
Proof.
  intros Hw Hd Hmu Hq.
  rewrite (@whitened_full_eval m _ Hw Hd Hq (eye_stack_is_tensor3 _ _)).
  f_equal. f_equal. rewrite Hmu.
  rewrite sumsq_zero by (apply Forall_repeat, Forall_repeat; reflexivity).
  set (M := num_inducing m). set (Ll := num_latent m).
  rewrite (@bigsum_ext Ll _ (fun _ => 0.5 * INR M)).
  - rewrite bigsum_const. lra.
  - intros d Hd'.
    rewrite (@bigsum_zero M (fun i => ln _)).
    + rewrite (@bigsum_ext M _ (fun _ => 1)).
      * rewrite bigsum_const. lra.
      * intros i Hi.
        rewrite (@bigsum_ext (S i) _ (fun j => if Nat.eqb j i then 1 else 0)).
        -- apply (bigsum_delta (fun _ => 1) (Nat.lt_succ_diag_r i)).
        -- intros j Hj. unfold t3nth. rewrite !tabulate_nth by lia.
           destruct (Nat.eqb j i); lra.
    + intros i Hi. unfold t3nth. rewrite !tabulate_nth by assumption.
      rewrite Nat.eqb_refl, Rmult_1_r. apply ln_1.
Qed.

(** ** The natural, diagonal branch as a quadratic form *)

Lemma mahalanobis_quadratic n w L (mu : mat) :
  is_mat n n L -> lower_tri n L -> diag_nonzero n L -> is_mat n w mu ->
  reduce_sum (tf_square (triangular_solve L mu lower))
  = bigsum w (fun d => bigsum n (fun a => bigsum n (fun b =>
      mnth mu a d
      * mnth (triangular_solve (tf_transpose L)
                (triangular_solve L (np_eye n) lower) upper) a b
      * mnth mu b d))).
Proof.
  intros HL Ht Hd Hmu.
  rewrite (@sumsq_mat n w) by (apply solve_lower_is_mat; [apply HL | apply Hmu]).
  set (Rm := triangular_solve L (np_eye n) lower).
  rewrite bigsum_swap. apply bigsum_ext. intros d Hd'.
  transitivity (bigsum n (fun i => bigsum n (fun a => bigsum n (fun b =>
                  (mnth Rm i a * mnth mu a d) * (mnth Rm i b * mnth mu b d))))).
  - apply bigsum_ext. intros i Hi.
    rewrite (solve_lower_linear HL Hmu Hi Hd'). fold Rm.
    rewrite <- bigsum_scal_r. apply bigsum_ext. intros a _.
    now rewrite <- bigsum_scal.
  - rewrite bigsum_swap. apply bigsum_ext. intros a Ha.
    rewrite bigsum_swap. apply bigsum_ext. intros b Hb.
    pose proof (Kinv_gram HL Ht Hd Ha Hb) as HK. fold Rm in HK. rewrite HK.
    rewrite <- bigsum_scal, <- bigsum_scal_r. apply bigsum_ext. intros i _. ring.
Qed.

Lemma is_mat_1x1 x : is_mat 1 1 [[x]].
Proof. split; [reflexivity | repeat constructor]. Qed.

Lemma is_tensor3_1x1x1 x : is_tensor3 1 1 1 [[[x]]].
Proof. split; [reflexivity | repeat constructor]. Qed.

Lemma entry_1x1_nonzero x : x <> 0 ->
  forall i d, (i < 1)%nat -> (d < 1)%nat -> mnth [[x]] i d <> 0.
Proof. intros Hx [|i] [|d] Hi Hd; try lia. exact Hx. Qed.

Lemma entry_1x1x1_nonzero x : x <> 0 ->
  forall i d, (i < 1)%nat -> (d < 1)%nat -> t3nth [[[x]]] i i d <> 0.
Proof. intros Hx [|i] [|d] Hi Hd; try lia. exact Hx. Qed.

Lemma cholesky_1x1_fails a : a <= 0 -> cholesky [[a]] = None.
Proof.
  intros Ha. unfold cholesky. simpl. unfold vdot. simpl.
  destruct (Rlt_dec 0 (a - 0)) as [H|H]; [exfalso; lra | reflexivity].
Qed.

Lemma toy_factor qd mu qs :
  cholesky (jittered_gram (toy qd false mu qs)) = Some [[sqrt (1 + 1 * 1e-6)]].
Proof. change (jittered_gram _) with [[1 + 1 * 1e-6]]. apply cholesky_1x1. lra. Qed.

Lemma toy_indefinite_fails : cholesky (jittered_gram toy_indefinite) = None.
Proof. change (jittered_gram _) with [[-1 + 1 * 1e-6]]. apply cholesky_1x1_fails. lra. Qed.

Lemma is_tensor3_2x2x1 a b c d : is_tensor3 2 2 1 [[[a]; [b]]; [[c]; [d]]].
Proof. split; [reflexivity|]. repeat constructor. Qed.

(* ================================================================= *)
(** * Further properties of the code *)

(** X1.  With [whiten = true] and [q_diag = true], for [q_mu] and [q_sqrt]
    both [M x L], [build_prior_KL] returns the sum over the entries of
    [0.5 (mu^2 + s^2) - 0.5 log(s^2) - 0.5], and requests no
    factorization. *)
Theorem whitened_diag_KL_closed_form (m : SVGP) (mu s : mat) :
  whiten m = true -> q_diag m = true ->
  value (q_mu m) = mu -> value (q_sqrt m) = Rank2 s ->
  is_mat (num_inducing m) (num_latent m) mu ->
  is_mat (num_inducing m) (num_latent m) s ->
  forall log,
    build_prior_KL m log
    = (Some (bigsum (num_inducing m) (fun i => bigsum (num_latent m) (fun d =>
               0.5 * (mnth mu i d * mnth mu i d + mnth s i d * mnth s i d)
               - 0.5 * ln (mnth s i d * mnth s i d) - 0.5))), log).
Proof.
  intros Hw Hd Hmu Hq Hm Hs log.
  rewrite (whitened_diag_eval m Hw Hd Hmu Hq Hm Hs). f_equal. f_equal.
  set (M := num_inducing m). set (Ll := num_latent m).
  rewrite (@bigsum_ext M
     (fun i => bigsum Ll (fun d =>
        0.5 * (mnth mu i d * mnth mu i d + mnth s i d * mnth s i d)
        - 0.5 * ln (mnth s i d * mnth s i d) - 0.5))
     (fun i =>
        (0.5 * bigsum Ll (fun d => mnth mu i d * mnth mu i d)
         + 0.5 * bigsum Ll (fun d => mnth s i d * mnth s i d)
         - 0.5 * bigsum Ll (fun d => ln (mnth s i d * mnth s i d)))
        - 0.5 * INR Ll)).
  - rewrite bigsum_minus, bigsum_const, bigsum_minus, bigsum_plus, !bigsum_scal. lra.
  - intros i _.
    rewrite bigsum_minus, bigsum_const, bigsum_minus, !bigsum_scal, bigsum_plus. lra.
Qed.

Lemma whitened_diag_KL_closed_form_witness :
  build_prior_KL toy_prior []
  = (Some (bigsum 1 (fun i => bigsum 1 (fun d =>
        0.5 * (mnth [[0]] i d * mnth [[0]] i d + mnth [[1]] i d * mnth [[1]] i d)
        - 0.5 * ln (mnth [[1]] i d * mnth [[1]] i d) - 0.5))), []).
Proof.
  apply (@whitened_diag_KL_closed_form toy_prior [[0]] [[1]] eq_refl eq_refl eq_refl eq_refl
           (is_mat_1x1 0) (is_mat_1x1 1) []).
Defined.

(** X2.  With [whiten = true] and [q_diag = true], for an [M x L] matrix
    [q_sqrt] without a zero entry, [build_prior_KL] succeeds and its value is
    not negative, whatever [q_mu] is. *)
Theorem whitened_diag_KL_nonneg (m : SVGP) (s : mat) :
  whiten m = true -> q_diag m = true ->
  value (q_sqrt m) = Rank2 s ->
  is_mat (num_inducing m) (num_latent m) s ->
  (forall i d, (i < num_inducing m)%nat -> (d < num_latent m)%nat -> mnth s i d <> 0) ->
  forall log, exists kl, build_prior_KL m log = (Some kl, log) /\ 0 <= kl.
Proof.
  intros Hw Hd Hq Hs Hpos log. unfold build_prior_KL. rewrite Hw, Hd, Hq.
  eexists. split; [reflexivity|].
  cbn [reduce_sum tf_log tf_square tmap ndarray_Tensor].
  fold (tf_square s). fold (tf_log (tf_square s)).
  rewrite (logsq_mat Hs), (sumsq_mat Hs).
  pose proof (sumsq_nonneg (value (q_mu m))) as Hmu.
  set (M := num_inducing m) in *. set (Ll := num_latent m) in *.
  assert (Hsum : 0 <= bigsum M (fun i => bigsum Ll (fun d =>
              0.5 * (mnth s i d * mnth s i d) - 0.5 * ln (mnth s i d * mnth s i d) - 0.5))).
  { apply bigsum_nonneg. intros i Hi. apply bigsum_nonneg. intros d Hd'.
    apply kl_entry_nonneg. now apply Hpos. }
  rewrite (@bigsum_ext M
     (fun i => bigsum Ll (fun d =>
        0.5 * (mnth s i d * mnth s i d) - 0.5 * ln (mnth s i d * mnth s i d) - 0.5))
     (fun i =>
       (0.5 * bigsum Ll (fun d => mnth s i d * mnth s i d)
        - 0.5 * bigsum Ll (fun d => ln (mnth s i d * mnth s i d)))
       - 0.5 * INR Ll)) in Hsum.
  - rewrite bigsum_minus, bigsum_const, bigsum_minus, !bigsum_scal in Hsum. lra.
  - intros i _. rewrite bigsum_minus, bigsum_const, bigsum_minus, !bigsum_scal. lra.
Qed.

Lemma whitened_diag_KL_nonneg_witness :
  exists kl, build_prior_KL toy_prior [] = (Some kl, []) /\ 0 <= kl.
Proof.
  apply (@whitened_diag_KL_nonneg toy_prior [[1]] eq_refl eq_refl eq_refl
           (is_mat_1x1 1)).
  apply entry_1x1_nonzero. lra.
Defined.

(** X3.  With [whiten = true] and [q_diag = false], for an [M x M x L]
    array [q_sqrt] whose slices have no zero on the diagonal,
    [build_prior_KL] returns
    [0.5 sum(q_mu^2) - 0.5 M L
     + sum_d (0.5 sum_(j <= i) q_sqrt[i,j,d]^2 - sum_i log |q_sqrt[i,i,d]|)]:
    of each slice only the lower triangle enters. *)
Theorem whitened_full_KL_closed_form (m : SVGP) (t : tensor3) :
  whiten m = true -> q_diag m = false ->
  value (q_sqrt m) = Rank3 t ->
  is_tensor3 (num_inducing m) (num_inducing m) (num_latent m) t ->
  (forall i d, (i < num_inducing m)%nat -> (d < num_latent m)%nat -> t3nth t i i d <> 0) ->
  forall log,
    build_prior_KL m log
    = (Some (0.5 * reduce_sum (tf_square (value (q_mu m)))
             - 0.5 * INR (num_inducing m) * INR (num_latent m)
             + bigsum (num_latent m) (fun d =>
                 0.5 * bigsum (num_inducing m) (fun i =>
                         bigsum (S i) (fun j => t3nth t i j d * t3nth t i j d))
                 - bigsum (num_inducing m) (fun i => ln (Rabs (t3nth t i i d))))),
       log).
Proof.
  intros Hw Hd Hq Ht Hnz log.
  rewrite (whitened_full_eval m Hw Hd Hq Ht). f_equal. f_equal. f_equal.
  apply bigsum_ext. intros d Hd'.
  rewrite (@bigsum_ext (num_inducing m) (fun i => ln (t3nth t i i d * t3nth t i i d))
             (fun i => 2 * ln (Rabs (t3nth t i i d)))).
  - rewrite bigsum_scal. lra.
  - intros i Hi. pose proof (Rabs_pos_lt _ (Hnz i d Hi Hd')) as Hpos.
    replace (t3nth t i i d * t3nth t i i d)
      with (Rabs (t3nth t i i d) * Rabs (t3nth t i i d))
      by (rewrite <- Rabs_mult; apply Rabs_right; nra).
    rewrite ln_mult by assumption. lra.
Qed.

Lemma whitened_full_KL_closed_form_witness :
  snd (build_prior_KL toy_full_whitened []) = [].
Proof.
  rewrite (@whitened_full_KL_closed_form toy_full_whitened [[[1]]] eq_refl eq_refl eq_refl
             (is_tensor3_1x1x1 1) (entry_1x1x1_nonzero R1_neq_R0) []).
  reflexivity.
Defined.

(** X4.  With [whiten = true] and [q_diag = false], for an [M x M x L]
    array [q_sqrt] whose slices have no zero on the diagonal,
    [build_prior_KL] succeeds and its value is not negative. *)
Theorem whitened_full_KL_nonneg (m : SVGP) (t : tensor3) :
  whiten m = true -> q_diag m = false ->
  value (q_sqrt m) = Rank3 t ->
  is_tensor3 (num_inducing m) (num_inducing m) (num_latent m) t ->
  (forall i d, (i < num_inducing m)%nat -> (d < num_latent m)%nat -> t3nth t i i d <> 0) ->
  forall log, exists kl, build_prior_KL m log = (Some kl, log) /\ 0 <= kl.
Proof.
  intros Hw Hd Hq Ht Hnz log.
  rewrite (whitened_full_eval m Hw Hd Hq Ht).
  eexists. split; [reflexivity|].
  pose proof (sumsq_nonneg (value (q_mu m))) as Hmu.
  set (M := num_inducing m) in *. set (Ll := num_latent m) in *.
  assert (Hsum : 0 <= bigsum Ll (fun d => bigsum M (fun i =>
     0.5 * (t3nth t i i d * t3nth t i i d)
     - 0.5 * ln (t3nth t i i d * t3nth t i i d) - 0.5))).
  { apply bigsum_nonneg. intros d Hd'. apply bigsum_nonneg. intros i Hi.
    apply kl_entry_nonneg. now apply Hnz. }
  assert (Hle : bigsum Ll (fun d => bigsum M (fun i =>
     0.5 * (t3nth t i i d * t3nth t i i d)
     - 0.5 * ln (t3nth t i i d * t3nth t i i d) - 0.5))
     <= bigsum Ll (fun d =>
          - 0.5 * bigsum M (fun i => ln (t3nth t i i d * t3nth t i i d))
          + 0.5 * bigsum M (fun i => bigsum (S i) (fun j => t3nth t i j d * t3nth t i j d))
          - 0.5 * INR M)).
  { apply bigsum_le. intros d Hd'.
    rewrite bigsum_minus, bigsum_const, bigsum_minus, !bigsum_scal.
    assert (bigsum M (fun i => t3nth t i i d * t3nth t i i d)
            <= bigsum M (fun i => bigsum (S i) (fun j => t3nth t i j d * t3nth t i j d))).
    { apply bigsum_le. intros i Hi.
      apply (@bigsum_ge_term (S i) (fun j => t3nth t i j d * t3nth t i j d) i);
        [intros; nra | lia]. }
    lra. }
  rewrite bigsum_minus, bigsum_const in Hle. lra.
Qed.

Lemma whitened_full_KL_nonneg_witness :
  exists kl, build_prior_KL toy_full_whitened [] = (Some kl, []) /\ 0 <= kl.
Proof.
  apply (@whitened_full_KL_nonneg toy_full_whitened [[[1]]] eq_refl eq_refl eq_refl
           (is_tensor3_1x1x1 1)).
  apply entry_1x1x1_nonzero. lra.
Defined.

(** X5.  With [whiten = false] and [q_diag = true], when the factorization
    of [K(Z) + 1e-6 I] succeeds and the [M x L] matrix [q_sqrt] has no zero
    entry, [build_prior_KL] succeeds and its value is not negative. *)
Theorem natural_diag_KL_nonneg (m : SVGP) (s L : mat) :
  whiten m = false -> q_diag m = true ->
  value (q_sqrt m) = Rank2 s ->
  is_mat (num_inducing m) (num_latent m) s ->
  length (value (Z m)) = num_inducing m ->
  (forall i d, (i < num_inducing m)%nat -> (d < num_latent m)%nat -> mnth s i d <> 0) ->
  cholesky (jittered_gram m) = Some L ->
  forall log,
    exists kl, build_prior_KL m log = (Some kl, log ++ [jittered_gram m]) /\ 0 <= kl.
Proof.
  intros Hw Hd Hq Hs HZ Hnz HL log.
  rewrite (natural_diag_eval m log Hw Hd Hq Hs HZ HL).
  eexists. split; [reflexivity|].
  destruct (@gram_factor_shape m L HZ HL) as (HLm & HLt & HLp).
  pose proof (@pos_diag_nonzero _ _ HLp) as HLd.
  pose proof (sumsq_nonneg (triangular_solve L (value (q_mu m)) lower)) as Hmu.
  set (M := num_inducing m) in *. set (Ll := num_latent m) in *.
  set (Kinv := triangular_solve (tf_transpose L) (triangular_solve L (np_eye M) lower) upper).
  assert (Hsum : 0 <= bigsum M (fun i => bigsum Ll (fun d =>
     0.5 * (mnth Kinv i i * (mnth s i d * mnth s i d))
     - 0.5 * ln (mnth s i d * mnth s i d)
     + 0.5 * ln (mnth L i i * mnth L i i) - 0.5))).
  { apply bigsum_nonneg. intros i Hi. apply bigsum_nonneg. intros d Hd'.
    apply natural_entry_bound; [now apply HLp | | now apply Hnz].
    now apply Kinv_diag_lower_bound. }
  rewrite (@bigsum_ext M
     (fun i => bigsum Ll (fun d =>
        0.5 * (mnth Kinv i i * (mnth s i d * mnth s i d))
        - 0.5 * ln (mnth s i d * mnth s i d)
        + 0.5 * ln (mnth L i i * mnth L i i) - 0.5))
     (fun i =>
        0.5 * bigsum Ll (fun d => mnth Kinv i i * (mnth s i d * mnth s i d))
        - 0.5 * bigsum Ll (fun d => ln (mnth s i d * mnth s i d))
        + INR Ll * 0.5 * ln (mnth L i i * mnth L i i) - 0.5 * INR Ll)) in Hsum.
  - rewrite bigsum_minus, bigsum_const, bigsum_plus, bigsum_minus, !bigsum_scal in Hsum.
    lra.
  - intros i _.
    rewrite bigsum_minus, bigsum_const, bigsum_plus, bigsum_const, bigsum_minus,
      !bigsum_scal.
    lra.
Qed.

Lemma natural_diag_KL_nonneg_witness :
  exists kl,
    build_prior_KL toy_natural [] = (Some kl, [] ++ [jittered_gram toy_natural]) /\ 0 <= kl.
Proof.
  apply (@natural_diag_KL_nonneg toy_natural [[1]] [[sqrt (1 + 1 * 1e-6)]]
           eq_refl eq_refl eq_refl (is_mat_1x1 1) eq_refl).
  - apply entry_1x1_nonzero. lra.
  - apply toy_factor.
Defined.

(** X6.  With [whiten = false] and [q_diag = false], when the factorization
    of [K(Z) + 1e-6 I] succeeds and the slices of the [M x M x L] array
    [q_sqrt] have no zero on the diagonal, [build_prior_KL] succeeds and its
    value is not negative. *)
Theorem natural_full_KL_nonneg (m : SVGP) (t : tensor3) (L : mat) :
  whiten m = false -> q_diag m = false ->
  value (q_sqrt m) = Rank3 t ->
  is_tensor3 (num_inducing m) (num_inducing m) (num_latent m) t ->
  length (value (Z m)) = num_inducing m ->
  (forall i d, (i < num_inducing m)%nat -> (d < num_latent m)%nat -> t3nth t i i d <> 0) ->
  cholesky (jittered_gram m) = Some L ->
  forall log,
    exists kl, build_prior_KL m log = (Some kl, log ++ [jittered_gram m]) /\ 0 <= kl.
Proof.
  intros Hw Hd Hq Ht HZ Hnz HL log.
  rewrite (natural_full_eval m log Hw Hd Hq Ht HZ HL).
  eexists. split; [reflexivity|].
  destruct (@gram_factor_shape m L HZ HL) as (HLm & HLt & HLp).
  pose proof (sumsq_nonneg (triangular_solve L (value (q_mu m)) lower)) as Hmu.
  set (M := num_inducing m) in *. set (Ll := num_latent m) in *.
  set (Lq := fun d => mk_mat M M (fun i j => if Nat.leb j i then t3nth t i j d else 0)).
  assert (HLq : forall d, is_mat M M (Lq d)) by (intros; apply mk_mat_is_mat).
  assert (HLqt : forall d, lower_tri M (Lq d)).
  { intros d i j Hij Hj. unfold Lq. rewrite mnth_mk_mat by lia.
    destruct (Nat.leb_spec j i); [lia | reflexivity]. }
  assert (Hper : forall d, (d < Ll)%nat ->
     0 <= - 0.5 * bigsum M (fun i => ln (t3nth t i i d * t3nth t i i d))
          + 0.5 * reduce_sum (tf_square (triangular_solve L (Lq d) lower))
          + 0.5 * bigsum M (fun i => ln (mnth L i i * mnth L i i)) - 0.5 * INR M).
  { intros d Hd'.
    assert (HX : is_mat M M (triangular_solve L (Lq d) lower))
      by (apply solve_lower_is_mat; [apply HLm | apply HLq]).
    rewrite (sumsq_mat HX).
    set (X := triangular_solve L (Lq d) lower) in *.
    assert (Hdiag : forall i, (i < M)%nat -> mnth X i i = / mnth L i i * t3nth t i i d).
    { intros i Hi. unfold X. rewrite (solve_lower_diag HLm (HLq d) (HLqt d) Hi).
      unfold Lq. rewrite mnth_mk_mat, Nat.leb_refl by assumption. reflexivity. }
    assert (Hlow : bigsum M (fun i => mnth X i i * mnth X i i)
                   <= bigsum M (fun i => bigsum M (fun j => mnth X i j * mnth X i j))).
    { apply bigsum_le. intros i Hi.
      apply (@bigsum_ge_term M (fun j => mnth X i j * mnth X i j) i);
        [intros; nra | assumption]. }
    assert (Hent : 0 <= bigsum M (fun i =>
       0.5 * (mnth X i i * mnth X i i) - 0.5 * ln (t3nth t i i d * t3nth t i i d)
       + 0.5 * ln (mnth L i i * mnth L i i) - 0.5)).
    { apply bigsum_nonneg. intros i Hi. rewrite (Hdiag i Hi).
      specialize (HLp i Hi). specialize (Hnz i d Hi Hd').
      assert (Hq' : / mnth L i i * t3nth t i i d <> 0).
      { apply Rmult_integral_contrapositive_currified; [|assumption].
        apply Rinv_neq_0_compat. lra. }
      pose proof (kl_entry_nonneg Hq') as He.
      rewrite ln_square_quot in He by lra. lra. }
    rewrite bigsum_minus, bigsum_const, bigsum_plus, bigsum_minus, !bigsum_scal in Hent.
    lra. }
  assert (Hall : 0 <= bigsum Ll (fun d =>
          - 0.5 * bigsum M (fun i => ln (t3nth t i i d * t3nth t i i d))
          + 0.5 * reduce_sum (tf_square (triangular_solve L (Lq d) lower))
          + 0.5 * bigsum M (fun i => ln (mnth L i i * mnth L i i)) - 0.5 * INR M))
    by (apply bigsum_nonneg; assumption).
  rewrite bigsum_minus, bigsum_const, bigsum_plus, bigsum_const in Hall.
  unfold Lq in Hall. lra.
Qed.

Lemma natural_full_KL_nonneg_witness :
  exists kl,
    build_prior_KL toy_full_natural []
    = (Some kl, [] ++ [jittered_gram toy_full_natural]) /\ 0 <= kl.
Proof.
  apply (@natural_full_KL_nonneg toy_full_natural [[[1]]] [[sqrt (1 + 1 * 1e-6)]]
           eq_refl eq_refl eq_refl (is_tensor3_1x1x1 1) eq_refl).
  - apply entry_1x1x1_nonzero. lra.
  - apply toy_factor.
Defined.

(** X7.  With [q_diag = false], in either parameterization,
    [build_prior_KL] never reads the entries of [q_sqrt] above the diagonal
    of a slice: two [M x M x L] arrays that agree on the lower triangles give
    the same result and the same trace. *)
Theorem full_KL_ignores_upper_triangle (m : SVGP) (t t' : tensor3) :
  is_tensor3 (num_inducing m) (num_inducing m) (num_latent m) t ->
  is_tensor3 (num_inducing m) (num_inducing m) (num_latent m) t' ->
  (forall i j d, (j <= i)%nat -> (i < num_inducing m)%nat -> (d < num_latent m)%nat ->
     t3nth t i j d = t3nth t' i j d) ->
  forall log,
    build_prior_KL (with_q_sqrt m false (Rank3 t)) log
    = build_prior_KL (with_q_sqrt m false (Rank3 t')) log.
Proof.
  intros Ht Ht' Hlow log. unfold build_prior_KL.
  cbn [whiten q_diag with_q_sqrt value q_sqrt q_mu num_latent num_inducing kern Z].
  set (M := num_inducing m) in *. set (Ll := num_latent m) in *.
  assert (Htri : forall d, (d < Ll)%nat ->
            triangle (mk_mat M M (fun i j => t3nth t i j d)) lower
            = triangle (mk_mat M M (fun i j => t3nth t' i j d)) lower).
  { intros d Hd. rewrite !triangle_slice. apply mk_mat_ext. intros i j Hi Hj.
    destruct (Nat.leb_spec j i); [|reflexivity]. now apply Hlow. }
  destruct (whiten m).
  - unfold for_range. apply for_loop_ext. intros d a s' Hin. apply in_seq in Hin.
    cbn [nd_slice3]. rewrite (slice3_entries Ht), (slice3_entries Ht') by lia.
    unfold lift_option, bind, ret. now rewrite Htri by lia.
  - unfold bind at 1 3. destruct (tf_cholesky _ log) as [[L|] s1]; [|reflexivity].
    unfold for_range. apply for_loop_ext. intros d a s' Hin. apply in_seq in Hin.
    cbn [nd_slice3]. rewrite (slice3_entries Ht), (slice3_entries Ht') by lia.
    unfold lift_option, bind, ret. now rewrite Htri by lia.
Qed.

Lemma full_KL_ignores_upper_triangle_witness :
  build_prior_KL (with_q_sqrt (toy2 false true [[0]; [0]] (Rank2 [])) false
                    (Rank3 [[[1]; [5]]; [[2]; [3]]])) []
  = build_prior_KL (with_q_sqrt (toy2 false true [[0]; [0]] (Rank2 [])) false
                      (Rank3 [[[1]; [7]]; [[2]; [3]]])) [].
Proof.
  apply (@full_KL_ignores_upper_triangle (toy2 false true [[0]; [0]] (Rank2 []))
           [[[1]; [5]]; [[2]; [3]]] [[[1]; [7]]; [[2]; [3]]]
           (is_tensor3_2x2x1 1 5 2 3) (is_tensor3_2x2x1 1 7 2 3)).
  intros [|[|i]] [|[|j]] [|d] Hji Hi Hd; simpl in Hi, Hd; try lia; reflexivity.
Defined.

(** X8.  Whitening leaves the KL unchanged: with [q_diag = false] and [L]
    the Cholesky factor of [K(Z) + 1e-6 I], the natural branch at
    [q_mu = L v] and slices [L Lq_d] returns the value that the whitened
    branch returns at [q_mu = v] and [q_sqrt] with lower triangles [Lq_d]
    (nonzero diagonals). *)
Theorem whitening_preserves_KL (m : SVGP) (v : mat) (t : tensor3) (L : mat) :
  q_diag m = false ->
  is_mat (num_inducing m) (num_latent m) v ->
  is_tensor3 (num_inducing m) (num_inducing m) (num_latent m) t ->
  length (value (Z m)) = num_inducing m ->
  (forall i d, (i < num_inducing m)%nat -> (d < num_latent m)%nat -> t3nth t i i d <> 0) ->
  cholesky (jittered_gram m) = Some L ->
  forall log,
    fst (build_prior_KL
           (with_parameters m false (tf_matmul L v)
              (Rank3 (stack3 (num_inducing m) (num_latent m)
                        (fun d => tf_matmul L (lower_slice (num_inducing m) t d))))) log)
    = fst (build_prior_KL (with_parameters m true v (Rank3 t)) log).
Proof.
  intros Hd Hv Ht HZ Hnz HL log.
  destruct (@gram_factor_shape m L HZ HL) as (HLm & HLt & HLp).
  pose proof (@pos_diag_nonzero _ _ HLp) as HLd.
  set (M := num_inducing m) in *. set (Ll := num_latent m) in *.
  set (P := fun d => tf_matmul L (lower_slice M t d)).
  assert (HPe : forall d, P d = mk_mat M M (fun i j =>
             bigsum M (fun k => mnth L i k * mnth (lower_slice M t d) k j))).
  { intros d. unfold P. apply matmul_entries; [assumption | apply mk_mat_is_mat]. }
  assert (HPm : forall d, is_mat M M (P d)) by (intros d; rewrite HPe; apply mk_mat_is_mat).
  (* the whitened side *)
  rewrite (@whitened_full_eval (with_parameters m true v (Rank3 t)) t
             eq_refl Hd eq_refl Ht log).
  (* the natural side *)
  rewrite (@natural_full_eval (with_parameters m false (tf_matmul L v) (Rank3 (stack3 M Ll P)))
             (stack3 M Ll P) L log eq_refl Hd eq_refl (stack3_is_tensor3 M Ll P) HZ HL).
  cbn [fst value q_mu with_parameters num_inducing num_latent].
  fold M. fold Ll. f_equal.
  (* the Mahalanobis terms *)
  assert (Hmu : reduce_sum (tf_square (triangular_solve L (tf_matmul L v) lower))
                = reduce_sum (tf_square v)).
  { assert (HLv : is_mat M Ll (tf_matmul L v))
      by (rewrite (matmul_entries HLm Hv); apply mk_mat_is_mat).
    rewrite (@sumsq_mat M Ll) by (apply solve_lower_is_mat; [apply HLm | apply HLv]).
    rewrite (sumsq_mat Hv).
    apply bigsum_ext. intros i Hi. apply bigsum_ext. intros j Hj.
    rewrite (solve_lower_product HLm Hv HLv HLt HLd); try assumption; [reflexivity|].
    intros a b Ha Hb. rewrite (matmul_entries HLm Hv). now rewrite mnth_mk_mat. }
  rewrite Hmu.
  (* the loops *)
  assert (Hloop : forall d, (d < Ll)%nat ->
     - 0.5 * bigsum M (fun i => ln (t3nth (stack3 M Ll P) i i d * t3nth (stack3 M Ll P) i i d))
     + 0.5 * reduce_sum (tf_square (triangular_solve L
           (mk_mat M M (fun i j => if Nat.leb j i then t3nth (stack3 M Ll P) i j d else 0))
           lower))
     = (- 0.5 * bigsum M (fun i => ln (t3nth t i i d * t3nth t i i d))
        + 0.5 * bigsum M (fun i => bigsum (S i) (fun j => t3nth t i j d * t3nth t i j d)))
       - 0.5 * bigsum M (fun i => ln (mnth L i i * mnth L i i))).
  { intros d Hd'.
    assert (Htri : mk_mat M M (fun i j =>
                     if Nat.leb j i then t3nth (stack3 M Ll P) i j d else 0) = P d).
    { rewrite (HPe d). apply mk_mat_ext. intros i j Hi Hj.
      rewrite stack3_entries by assumption. rewrite (HPe d), mnth_mk_mat by assumption.
      symmetry. apply (product_lower HLm HLt (@lower_slice_tri M t d) Hi Hj). }
    rewrite Htri.
    assert (Hsol : reduce_sum (tf_square (triangular_solve L (P d) lower))
                   = reduce_sum (tf_square (lower_slice M t d))).
    { assert (HLs : is_mat M M (lower_slice M t d)) by apply mk_mat_is_mat.
      rewrite (@sumsq_mat M M) by (apply solve_lower_is_mat; [apply HLm | apply HPm]).
      rewrite (@sumsq_mat M M (lower_slice M t d)) by assumption.
      apply bigsum_ext. intros i Hi. apply bigsum_ext. intros j Hj.
      rewrite (solve_lower_product HLm HLs (HPm d) HLt HLd);
        try assumption; [reflexivity|].
      intros a b Ha Hb. rewrite (HPe d). now rewrite mnth_mk_mat. }
    rewrite Hsol. unfold lower_slice at 1. rewrite sumsq_lower.
    rewrite (@bigsum_ext M
       (fun i => ln (t3nth (stack3 M Ll P) i i d * t3nth (stack3 M Ll P) i i d))
       (fun i => ln (mnth L i i * mnth L i i) + ln (t3nth t i i d * t3nth t i i d))).
    - rewrite bigsum_plus. lra.
    - intros i Hi. rewrite stack3_entries by assumption.
      rewrite (HPe d), mnth_mk_mat by assumption.
      rewrite (product_diag HLt (@lower_slice_tri M t d) Hi).
      unfold lower_slice. rewrite mnth_mk_mat, Nat.leb_refl by assumption.
      specialize (HLp i Hi). specialize (Hnz i d Hi Hd').
      now rewrite ln_square_prod by lra. }
  rewrite (bigsum_ext _ _ Hloop).
  rewrite bigsum_minus, bigsum_const. lra.
Qed.

Lemma whitening_preserves_KL_witness :
  fst (build_prior_KL
         (with_parameters toy_full_natural false (tf_matmul [[sqrt (1 + 1 * 1e-6)]] [[2]])
            (Rank3 (stack3 1 1 (fun d =>
                      tf_matmul [[sqrt (1 + 1 * 1e-6)]] (lower_slice 1 [[[3]]] d))))) [])
  = fst (build_prior_KL (with_parameters toy_full_natural true [[2]] (Rank3 [[[3]]])) []).
Proof.
  apply (@whitening_preserves_KL toy_full_natural [[2]] [[[3]]] [[sqrt (1 + 1 * 1e-6)]]
           eq_refl (is_mat_1x1 2) (is_tensor3_1x1x1 3) eq_refl).
  - apply entry_1x1x1_nonzero. lra.
  - apply toy_factor.
Defined.

(** X9.  With [whiten = false] and [q_diag = true], the value of
    [build_prior_KL] written through [K_inv] only: per latent function [d],
    [0.5 mu_d^T K_inv mu_d + 0.5 sum_i K_inv[i,i] s[i,d]^2 + sum_i log L[i,i]
     - 0.5 sum_i log s[i,d]^2 - 0.5 M]; the term [0.5 sum(alpha^2)] of the code
    is the quadratic form of [q_mu] in [K_inv]. *)
Theorem natural_diag_KL_quadratic_form (m : SVGP) (mu s L : mat) :
  whiten m = false -> q_diag m = true ->
  value (q_mu m) = mu -> value (q_sqrt m) = Rank2 s ->
  is_mat (num_inducing m) (num_latent m) mu ->
  is_mat (num_inducing m) (num_latent m) s ->
  length (value (Z m)) = num_inducing m ->
  cholesky (jittered_gram m) = Some L ->
  forall log,
    build_prior_KL m log
    = (let K_inv := triangular_solve (tf_transpose L)
                      (triangular_solve L (np_eye (num_inducing m)) lower) upper in
       Some (bigsum (num_latent m) (fun d =>
               0.5 * bigsum (num_inducing m) (fun a => bigsum (num_inducing m) (fun b =>
                       mnth mu a d * mnth K_inv a b * mnth mu b d))
               + 0.5 * bigsum (num_inducing m) (fun i =>
                         mnth K_inv i i * (mnth s i d * mnth s i d))
               + bigsum (num_inducing m) (fun i => ln (mnth L i i))
               - 0.5 * bigsum (num_inducing m) (fun i => ln (mnth s i d * mnth s i d))
               - 0.5 * INR (num_inducing m))),
       log ++ [jittered_gram m]).
Proof.
  intros Hw Hd Hmu Hq Hm Hs HZ HL log.
  rewrite (natural_diag_eval m log Hw Hd Hq Hs HZ HL). cbv zeta.
  destruct (@gram_factor_shape m L HZ HL) as (HLm & HLt & HLp).
  pose proof (@pos_diag_nonzero _ _ HLp) as HLd.
  rewrite Hmu, (mahalanobis_quadratic HLm HLt HLd Hm).
  set (M := num_inducing m) in *. set (Ll := num_latent m) in *.
  f_equal. f_equal.
  rewrite bigsum_minus, bigsum_const, bigsum_minus, bigsum_plus, bigsum_const,
    bigsum_plus, !bigsum_scal.
  rewrite (bigsum_swap M Ll (fun i j => ln (mnth s i j * mnth s i j))).
  rewrite (bigsum_swap M Ll (fun i d =>
             mnth (triangular_solve (tf_transpose L)
                     (triangular_solve L (np_eye M) lower) upper) i i
             * (mnth s i d * mnth s i d))).
  rewrite (@bigsum_ext M (fun i => ln (mnth L i i * mnth L i i))
             (fun i => 2 * ln (mnth L i i))).
  - rewrite bigsum_scal. lra.
  - intros i Hi. specialize (HLp i Hi). rewrite ln_mult by assumption. lra.
Qed.

Lemma natural_diag_KL_quadratic_form_witness :
  snd (build_prior_KL toy_natural []) = [] ++ [jittered_gram toy_natural].
Proof.
  rewrite (@natural_diag_KL_quadratic_form toy_natural [[0]] [[1]]
             [[sqrt (1 + 1 * 1e-6)]] eq_refl eq_refl eq_refl eq_refl
             (is_mat_1x1 0) (is_mat_1x1 1) eq_refl (toy_factor _ _ _) []).
  reflexivity.
Defined.

(** X10.  With [q_diag = false] and at least one latent function, a rank-2
    [q_sqrt] makes [build_prior_KL] fail, in either parameterization: its
    loop indexes [q_sqrt] on three axes. *)
Theorem rank2_q_sqrt_full_fails (m : SVGP) (s : mat) :
  q_diag m = false -> value (q_sqrt m) = Rank2 s -> (0 < num_latent m)%nat ->
  forall log, fst (build_prior_KL m log) = None.
Proof.
  intros Hd Hq HL log. unfold build_prior_KL. rewrite Hd, Hq.
  destruct (num_latent m) as [|n] eqn:En; [lia|].
  unfold for_range. rewrite <- cons_seq.
  destruct (whiten m).
  - now rewrite for_loop_raise.
  - unfold bind at 1. destruct (tf_cholesky _ log) as [[L|] s1]; [|reflexivity].
    now rewrite for_loop_raise.
Qed.

Lemma rank2_q_sqrt_full_fails_witness : fst (build_prior_KL toy_rank2_full []) = None.
Proof.
  apply (@rank2_q_sqrt_full_fails toy_rank2_full [[1]] eq_refl eq_refl).
  simpl. lia.
Defined.

(** X11.  With [whiten = false], when [K(Z) + 1e-6 I] is not positive
    definite, the factorization fails, and neither [build_prior_KL] nor
    [build_likelihood] has a value, whatever the variational parameters, the
    likelihood and the conditional predictor are. *)
Theorem cholesky_failure_is_fatal `{Conditionals} (m : SVGP) (log : trace) :
  whiten m = false ->
  cholesky (jittered_gram m) = None ->
  fst (build_prior_KL m log) = None /\ fst (build_likelihood m log) = None.
Proof.
  intros Hw Hc.
  assert (Hkl : fst (build_prior_KL m log) = None).
  { unfold build_prior_KL. rewrite Hw. fold (jittered_gram m).
    unfold bind, tf_cholesky. now rewrite Hc. }
  split; [exact Hkl|].
  unfold build_likelihood. unfold bind at 1.
  destruct (build_prior_KL m log) as [[KL|] s1]; [discriminate Hkl | reflexivity].
Qed.

Lemma cholesky_failure_is_fatal_witness :
  fst (build_prior_KL toy_indefinite []) = None /\
  fst (@build_likelihood prior_Conditionals toy_indefinite []) = None.
Proof.
  apply (@cholesky_failure_is_fatal prior_Conditionals toy_indefinite [] eq_refl).
  apply toy_indefinite_fails.
Defined.

(** X12.  With [whiten = true], [build_prior_KL] requests no Cholesky
    factorization; the factorizations of an evaluation of [build_likelihood]
    are those of the whitened predictor alone, and none when the KL fails. *)
Theorem whitened_KL_no_factorization `{Conditionals} (m : SVGP) (log : trace) :
  whiten m = true ->
  snd (build_prior_KL m log) = log /\
  snd (build_likelihood m log)
  = match fst (build_prior_KL m log) with
    | Some _ =>
        snd (gaussian_gp_predict_whitened (X m) (value (Z m)) (kern m) (value (q_mu m))
               (value (q_sqrt m)) (num_latent m) log)
    | None => log
    end.
Proof.
  intros Hw. pose proof (prior_KL_trace m log) as Ht. rewrite Hw in Ht.
  split; [exact Ht|].
  unfold build_likelihood. unfold bind at 1.
  destruct (build_prior_KL m log) as [[KL|] s1]; simpl in Ht; subst s1; simpl fst; cbv iota.
  - rewrite Hw. unfold bind.
    destruct (gaussian_gp_predict_whitened _ _ _ _ _ _ _) as [[fv|] s2]; reflexivity.
  - reflexivity.
Qed.

Lemma whitened_KL_no_factorization_witness :
  snd (build_prior_KL toy_prior []) = [].
Proof.
  apply (@whitened_KL_no_factorization prior_Conditionals toy_prior [] eq_refl).
Defined.

(** X13.  The construction fails exactly when [q_diag = false] and the
    resolved number of latent functions is [0]; when it succeeds,
    [num_inducing] is the number of rows of [Z], [q_mu] is
    [num_inducing x num_latent], and [q_sqrt] is a rank-2 array of that shape
    when [q_diag] is set, a rank-3 array
    [num_inducing x num_inducing x num_latent] otherwise. *)
Theorem init_shapes `{Transforms} X0 Y0 k lik Z0 mf nl qd wh :
  (__init__ X0 Y0 k lik Z0 mf nl qd wh = None
   <-> qd = false /\ py_or nl (shape1 Y0) = 0%nat) /\
  forall m, __init__ X0 Y0 k lik Z0 mf nl qd wh = Some m ->
    length (value (Z m)) = num_inducing m /\
    is_mat (num_inducing m) (num_latent m) (value (q_mu m)) /\
    (if qd
     then exists s, value (q_sqrt m) = Rank2 s
                    /\ is_mat (num_inducing m) (num_latent m) s
     else exists t, value (q_sqrt m) = Rank3 t
                    /\ is_tensor3 (num_inducing m) (num_inducing m) (num_latent m) t).
Proof.
  split.
  - unfold __init__. destruct qd; simpl.
    + split; [discriminate | intros [? _]; discriminate].
    + destruct (Nat.eq_dec (py_or nl (shape1 Y0)) 0) as [E|E].
      * rewrite E. simpl. split; [now split | reflexivity].
      * rewrite swapaxes02_eye_stack by lia. simpl.
        split; [discriminate | intros [_ ?]; contradiction].
  - intros m Hm.
    destruct (init_fields _ _ _ _ _ _ _ _ _ Hm) as (_ & _ & HZ & HL & HM & Hmu & Hq).
    rewrite HL, HM, HZ, Hmu. split; [reflexivity|]. split; [apply np_zeros_is_mat|].
    destruct qd.
    + injection Hq as ->. eexists. split; [reflexivity | apply np_ones_is_mat].
    + destruct (Nat.eq_dec (py_or nl (shape1 Y0)) 0) as [E|E].
      * rewrite E in Hq. discriminate.
      * rewrite swapaxes02_eye_stack in Hq by lia. simpl in Hq. injection Hq as <-.
        eexists. split; [reflexivity | apply eye_stack_is_tensor3].
Qed.

(** X14.  For every model constructed with [whiten = true], with either
    value of [q_diag], [build_prior_KL] evaluates to exactly [0] and requests
    no factorization. *)
Theorem init_whitened_KL_zero `{Transforms} X0 Y0 k lik Z0 mf nl qd m :
  __init__ X0 Y0 k lik Z0 mf nl qd true = Some m ->
  forall log, build_prior_KL m log = (Some 0, log).
Proof.
  intros Hm log.
  destruct (init_fields _ _ _ _ _ _ _ _ _ Hm) as (Hd & Hw & _ & HL & HM & Hmu & Hq).
  assert (Hmu' : value (q_mu m) = np_zeros (num_inducing m) (num_latent m))
    by now rewrite Hmu, HM, HL.
  destruct qd.
  - injection Hq as Hq. apply whitened_diag_at_prior; try assumption.
    now rewrite Hq, HM, HL.
  - destruct (Nat.eq_dec (py_or nl (shape1 Y0)) 0) as [E|E].
    + rewrite E in Hq. discriminate.
    + rewrite swapaxes02_eye_stack in Hq by lia. simpl in Hq. injection Hq as Hq.
      apply whitened_full_at_prior; try assumption.
      now rewrite <- Hq, HM, HL.
Qed.

Lemma init_whitened_KL_zero_witness :
  exists m,
    @__init__ exp_Transforms [[0]] [[1; 2]] white_kernel gaussian_likelihood [[0]; [1]]
      zero_mean None false true = Some m /\
    build_prior_KL m [] = (Some 0, []).
Proof.
  eexists. split; [reflexivity|].
  apply (@init_whitened_KL_zero exp_Transforms [[0]] [[1; 2]] white_kernel
           gaussian_likelihood [[0]; [1]] zero_mean None false _ eq_refl []).
Defined.
